(** * ant-buffer: ByteBuffer, MessageBuffer and RingBuffer

    A shallow embedding of the three header-only buffer classes
    (src/byte_buffer.h, src/message_buffer.h, src/ring_buffer.h) and the
    properties stated about them.

    Conventions of the embedding:
    - [size_t], [uint8_t], [uint16_t] and [uint32_t] values are integers of
      [Z]; every arithmetic operation the source performs in one of these
      types is followed by the reduction modulo the width of the type;
    - the caller-supplied byte array is a [list Z]; [data_[i]] is [load] and
      [data_[i] = v] is [store].  An access outside the array is undefined
      behaviour in C++; [load] then yields 0 and [store] leaves the array as
      it is, and every statement about the bytes of the array assumes that
      the declared capacity is the length of the array, under which no
      access of the classes is outside it;
    - a member function that mutates the object takes the object and
      returns the new object next to its result; a reader returning [bool]
      with an out-parameter returns [Some v] for [true] with [out = v] and
      [None] for [false] with [out] untouched. *)

From stdpp Require Import base numbers list.
From coqutil Require Import Z.bitblast.

Local Open Scope Z_scope.

(** ** Integer types *)

(** The width of [size_t] is fixed by the target (32 bits on the ESP32 the
    library was written for, 64 on a desktop build of the tests); the
    C++ standard guarantees at least 16 bits. *)
Class Platform := {
  size_bits : Z;
  size_bits_min : 16 <= size_bits
}.

Definition ilp32 : Platform := {| size_bits := 32; size_bits_min := ltac:(lia) |}.
Definition lp64 : Platform := {| size_bits := 64; size_bits_min := ltac:(lia) |}.

Definition SIZE_MOD {pf : Platform} : Z := 2 ^ size_bits.

(** Conversions to the unsigned types. *)
Definition to_size {pf : Platform} (z : Z) : Z := z mod SIZE_MOD.
Definition to_uint8 (z : Z) : Z := z mod 2 ^ 8.
Definition to_uint16 (z : Z) : Z := z mod 2 ^ 16.
Definition to_uint32 (z : Z) : Z := z mod 2 ^ 32.

Definition is_size {pf : Platform} (z : Z) : Prop := 0 <= z < SIZE_MOD.
Definition is_uint8 (z : Z) : Prop := 0 <= z < 2 ^ 8.
Definition is_uint16 (z : Z) : Prop := 0 <= z < 2 ^ 16.
Definition is_uint32 (z : Z) : Prop := 0 <= z < 2 ^ 32.

(** ** The borrowed byte array *)

Definition load (a : list Z) (i : Z) : Z := default 0 (a !! Z.to_nat i).
Definition store (a : list Z) (i : Z) (v : Z) : list Z := <[Z.to_nat i := v]> a.

(** [length] of an array as an integer. *)
Definition len {A} (a : list A) : Z := Z.of_nat (length a).

(** Byte [k] (0 = least significant) of an unsigned value. *)
Definition byte_of (v : Z) (k : Z) : Z := (v / 2 ^ (8 * k)) mod 256.

(** The array [a] with the bytes [bs] in place of those at indices
    [p .. p + len bs - 1]. *)
Definition splice (a : list Z) (p : Z) (bs : list Z) : list Z :=
  take (Z.to_nat p) a ++ bs ++ drop (Z.to_nat (p + len bs)) a.

(** ** ByteBuffer (src/byte_buffer.h)

    The header holds the class twice; the two texts differ only in the
    names of the cursor fields ([head_]/[tail_] in the first,
    [write_pos_]/[read_pos_] in the second).  The names of the first are
    used. *)

Module ByteBuffer.
Section WithPlatform.
Context {pf : Platform}.

Record t := mk {
  data_ : list Z;     (* the external byte array *)
  capacity_ : Z;      (* total size of the array in bytes *)
  head_ : Z;          (* next index to write *)
  tail_ : Z           (* next index to read *)
}.

(** [ByteBuffer(buffer, capacity)] *)
Definition make (buffer : list Z) (capacity : Z) : t :=
  {| data_ := buffer; capacity_ := capacity; head_ := 0; tail_ := 0 |}.

Definition set_head (bb : t) (h : Z) : t :=
  {| data_ := data_ bb; capacity_ := capacity_ bb; head_ := h; tail_ := tail_ bb |}.
Definition set_tail (bb : t) (r : Z) : t :=
  {| data_ := data_ bb; capacity_ := capacity_ bb; head_ := head_ bb; tail_ := r |}.
Definition set_data (bb : t) (d : list Z) : t :=
  {| data_ := d; capacity_ := capacity_ bb; head_ := head_ bb; tail_ := tail_ bb |}.

Definition resetWrite (bb : t) : t := set_head bb 0.
Definition writePosition (bb : t) : Z := head_ bb.
Definition writeRemaining (bb : t) : Z :=
  if head_ bb <? capacity_ bb then to_size (capacity_ bb - head_ bb) else 0.

Definition resetRead (bb : t) : t := set_tail bb 0.
Definition readPosition (bb : t) : Z := tail_ bb.
Definition readRemaining (bb : t) : Z :=
  if tail_ bb <? head_ bb then to_size (head_ bb - tail_ bb) else 0.

Definition capacity (bb : t) : Z := capacity_ bb.

(** *** 8-bit *)

Definition readUInt8 (bb : t) : option Z * t :=
  if readRemaining bb <? 1 then (None, bb)
  else (Some (load (data_ bb) (tail_ bb)),
        set_tail bb (to_size (tail_ bb + 1))).

Definition writeUInt8 (v : Z) (bb : t) : bool * t :=
  if writeRemaining bb <? 1 then (false, bb)
  else (true,
        set_head (set_data bb (store (data_ bb) (head_ bb) v))
                 (to_size (head_ bb + 1))).

(** *** 16-bit *)

Definition readUInt16LE (bb : t) : option Z * t :=
  if readRemaining bb <? 2 then (None, bb)
  else
    let d := data_ bb in
    let p := tail_ bb in
    (Some (to_uint16
             (Z.lor (to_uint16 (load d p))
                    (Z.shiftl (to_uint16 (load d (to_size (p + 1)))) 8))),
     set_tail bb (to_size (p + 2))).

Definition readUInt16BE (bb : t) : option Z * t :=
  if readRemaining bb <? 2 then (None, bb)
  else
    let d := data_ bb in
    let p := tail_ bb in
    (Some (to_uint16
             (Z.lor (Z.shiftl (to_uint16 (load d p)) 8)
                    (to_uint16 (load d (to_size (p + 1)))))),
     set_tail bb (to_size (p + 2))).

Definition writeUInt16LE (v : Z) (bb : t) : bool * t :=
  if writeRemaining bb <? 2 then (false, bb)
  else
    let p := head_ bb in
    let d0 := store (data_ bb) p (to_uint8 (Z.land v 255)) in
    let d1 := store d0 (to_size (p + 1)) (to_uint8 (Z.land (Z.shiftr v 8) 255)) in
    (true, set_head (set_data bb d1) (to_size (p + 2))).

Definition writeUInt16BE (v : Z) (bb : t) : bool * t :=
  if writeRemaining bb <? 2 then (false, bb)
  else
    let p := head_ bb in
    let d0 := store (data_ bb) p (to_uint8 (Z.land (Z.shiftr v 8) 255)) in
    let d1 := store d0 (to_size (p + 1)) (to_uint8 (Z.land v 255)) in
    (true, set_head (set_data bb d1) (to_size (p + 2))).

(** *** 32-bit *)

Definition readUInt32LE (bb : t) : option Z * t :=
  if readRemaining bb <? 4 then (None, bb)
  else
    let d := data_ bb in
    let p := tail_ bb in
    (Some (Z.lor (Z.lor (Z.lor
             (to_uint32 (load d p))
             (to_uint32 (Z.shiftl (to_uint32 (load d (to_size (p + 1)))) 8)))
             (to_uint32 (Z.shiftl (to_uint32 (load d (to_size (p + 2)))) 16)))
             (to_uint32 (Z.shiftl (to_uint32 (load d (to_size (p + 3)))) 24))),
     set_tail bb (to_size (p + 4))).

Definition readUInt32BE (bb : t) : option Z * t :=
  if readRemaining bb <? 4 then (None, bb)
  else
    let d := data_ bb in
    let p := tail_ bb in
    (Some (Z.lor (Z.lor (Z.lor
             (to_uint32 (Z.shiftl (to_uint32 (load d p)) 24))
             (to_uint32 (Z.shiftl (to_uint32 (load d (to_size (p + 1)))) 16)))
             (to_uint32 (Z.shiftl (to_uint32 (load d (to_size (p + 2)))) 8)))
             (to_uint32 (load d (to_size (p + 3))))),
     set_tail bb (to_size (p + 4))).

Definition writeUInt32LE (v : Z) (bb : t) : bool * t :=
  if writeRemaining bb <? 4 then (false, bb)
  else
    let p := head_ bb in
    let d0 := store (data_ bb) p (to_uint8 (Z.land v 255)) in
    let d1 := store d0 (to_size (p + 1)) (to_uint8 (Z.land (Z.shiftr v 8) 255)) in
    let d2 := store d1 (to_size (p + 2)) (to_uint8 (Z.land (Z.shiftr v 16) 255)) in
    let d3 := store d2 (to_size (p + 3)) (to_uint8 (Z.land (Z.shiftr v 24) 255)) in
    (true, set_head (set_data bb d3) (to_size (p + 4))).

Definition writeUInt32BE (v : Z) (bb : t) : bool * t :=
  if writeRemaining bb <? 4 then (false, bb)
  else
    let p := head_ bb in
    let d0 := store (data_ bb) p (to_uint8 (Z.land (Z.shiftr v 24) 255)) in
    let d1 := store d0 (to_size (p + 1)) (to_uint8 (Z.land (Z.shiftr v 16) 255)) in
    let d2 := store d1 (to_size (p + 2)) (to_uint8 (Z.land (Z.shiftr v 8) 255)) in
    let d3 := store d2 (to_size (p + 3)) (to_uint8 (Z.land v 255)) in
    (true, set_head (set_data bb d3) (to_size (p + 4))).

(** *** Sequences of calls *)

(** The public mutating operations; the queries ([writePosition],
    [readRemaining], ...) are [const] and leave the object as it is. *)
Inductive call :=
| ResetWrite | ResetRead
| ReadUInt8 | WriteUInt8 (v : Z)
| ReadUInt16LE | ReadUInt16BE | WriteUInt16LE (v : Z) | WriteUInt16BE (v : Z)
| ReadUInt32LE | ReadUInt32BE | WriteUInt32LE (v : Z) | WriteUInt32BE (v : Z).

Definition step (c : call) (bb : t) : t :=
  match c with
  | ResetWrite => resetWrite bb
  | ResetRead => resetRead bb
  | ReadUInt8 => (readUInt8 bb).2
  | WriteUInt8 v => (writeUInt8 v bb).2
  | ReadUInt16LE => (readUInt16LE bb).2
  | ReadUInt16BE => (readUInt16BE bb).2
  | WriteUInt16LE v => (writeUInt16LE v bb).2
  | WriteUInt16BE v => (writeUInt16BE v bb).2
  | ReadUInt32LE => (readUInt32LE bb).2
  | ReadUInt32BE => (readUInt32BE bb).2
  | WriteUInt32LE v => (writeUInt32LE v bb).2
  | WriteUInt32BE v => (writeUInt32BE v bb).2
  end.

Fixpoint run (cs : list call) (bb : t) : t :=
  match cs with
  | [] => bb
  | c :: cs' => run cs' (step c bb)
  end.

(** The states a program can bring a ByteBuffer to: constructed over an
    array of [capacity] bytes, then any calls. *)
Definition reachable (bb : t) : Prop :=
  ∃ buffer capacity cs,
    is_size capacity ∧ len buffer = capacity ∧ bb = run cs (make buffer capacity).

(** The cursor invariant of the data model. *)
Definition cursor_invariant (bb : t) : Prop :=
  0 <= readPosition bb ∧ readPosition bb <= writePosition bb
  ∧ writePosition bb <= capacity bb.

(** What every call keeps: the array and its capacity are those given to
    the constructor and both cursors are inside [0, capacity]. *)
Definition bounded (bb : t) : Prop :=
  is_size (capacity_ bb) ∧ len (data_ bb) = capacity_ bb
  ∧ 0 <= head_ bb <= capacity_ bb ∧ 0 <= tail_ bb <= capacity_ bb.

(** The object after the bytes [bs] were written at the write cursor: the
    bytes are in the array from [writePosition()] on, the write cursor is
    advanced by their number, and nothing else has changed. *)
Definition after_write (bb : t) (bs : list Z) : t :=
  {| data_ := splice (data_ bb) (head_ bb) bs;
     capacity_ := capacity_ bb;
     head_ := head_ bb + len bs;
     tail_ := tail_ bb |}.

(** [resetWrite_at_start cs bb]: along the calls [cs] from [bb], every
    [resetWrite()] is made while [readPosition()] is 0. *)
Fixpoint resetWrite_at_start (cs : list call) (bb : t) : bool :=
  match cs with
  | [] => true
  | c :: cs' =>
      (match c with ResetWrite => readPosition bb =? 0 | _ => true end)
      && resetWrite_at_start cs' (step c bb)
  end.

(** A reader [r] of width [w] is all-or-nothing on [bb]: with fewer than
    [w] bytes to read it fails and leaves the object as it is; otherwise it
    returns a value and only advances the read cursor, by [w]. *)
Definition read_all_or_nothing (r : t → option Z * t) (w : Z) (bb : t) : Prop :=
  (readRemaining bb < w → r bb = (None, bb))
  ∧ (w <= readRemaining bb →
     is_Some (r bb).1 ∧ (r bb).2 = set_tail bb (readPosition bb + w)).

(** [writeUInt8] for each byte of [vs] in turn, as the loop of the overflow
    test does; the results of the calls and the final object. *)
Fixpoint writeUInt8s (vs : list Z) (bb : t) : list bool * t :=
  match vs with
  | [] => ([], bb)
  | v :: vs' =>
      let '(r, bb1) := writeUInt8 v bb in
      let '(rs, bb2) := writeUInt8s vs' bb1 in
      (r :: rs, bb2)
  end.

(** [n] calls of [readUInt8] in turn; the results of the calls and the
    final object. *)
Fixpoint readUInt8s (n : nat) (bb : t) : list (option Z) * t :=
  match n with
  | O => ([], bb)
  | S n' =>
      let '(r, bb1) := readUInt8 bb in
      let '(rs, bb2) := readUInt8s n' bb1 in
      (r :: rs, bb2)
  end.

End WithPlatform.
End ByteBuffer.

(** ** MessageBuffer (src/message_buffer.h) *)

Module MessageBuffer.
Section WithPlatform.
Context {pf : Platform}.

Record t := mk {
  data_ : list Z;     (* the external byte array *)
  capacity_ : Z;      (* total size of the array in bytes *)
  head_ : Z;          (* write/read cursor *)
  tail_ : Z           (* read cursor during payload reads *)
}.

(** Bytes reserved for the header: [type][length]. *)
Definition headerSize_ : Z := 2.

(** [MessageBuffer(buffer, capacity)] *)
Definition make (buffer : list Z) (capacity : Z) : t :=
  {| data_ := buffer; capacity_ := capacity; head_ := 0; tail_ := 0 |}.

Definition beginMessage (type : Z) (mb : t) : bool * t :=
  if capacity_ mb <? headerSize_ then (false, mb)
  else (true,
        {| data_ := store (store (data_ mb) 0 type) 1 0;
           capacity_ := capacity_ mb;
           head_ := headerSize_;
           tail_ := 0 |}).

Definition writeByte (v : Z) (mb : t) : bool * t :=
  if head_ mb >=? capacity_ mb then (false, mb)
  else (true,
        {| data_ := store (data_ mb) (head_ mb) v;
           capacity_ := capacity_ mb;
           head_ := to_size (head_ mb + 1);
           tail_ := tail_ mb |}).

Definition finalizeMessage (mb : t) : t :=
  let payloadLength := to_size (head_ mb - headerSize_) in
  let payloadLength := if payloadLength >? 255 then 255 else payloadLength in
  {| data_ := store (data_ mb) 1 (to_uint8 payloadLength);
     capacity_ := capacity_ mb;
     head_ := head_ mb;
     tail_ := tail_ mb |}.

Definition data (mb : t) : list Z := data_ mb.
Definition size (mb : t) : Z := head_ mb.

Definition beginRead (size : Z) (mb : t) : bool * t :=
  if (size <? headerSize_) || (size >? capacity_ mb) then (false, mb)
  else (true,
        {| data_ := data_ mb;
           capacity_ := capacity_ mb;
           head_ := size;
           tail_ := headerSize_ |}).

Definition messageType (mb : t) : Z := load (data_ mb) 0.
Definition payloadLength (mb : t) : Z := load (data_ mb) 1.

Definition readByte (mb : t) : option Z * t :=
  if tail_ mb >=? head_ mb then (None, mb)
  else (Some (load (data_ mb) (tail_ mb)),
        {| data_ := data_ mb;
           capacity_ := capacity_ mb;
           head_ := head_ mb;
           tail_ := to_size (tail_ mb + 1) |}).

Definition readRemaining (mb : t) : Z :=
  let payloadEnd := to_size (headerSize_ + payloadLength mb) in
  if tail_ mb <? payloadEnd then to_size (payloadEnd - tail_ mb) else 0.

(** *** Sequences of calls *)

Inductive call :=
| BeginMessage (type : Z) | WriteByte (v : Z) | FinalizeMessage
| BeginRead (size : Z) | ReadByte.

Definition step (c : call) (mb : t) : t :=
  match c with
  | BeginMessage type => (beginMessage type mb).2
  | WriteByte v => (writeByte v mb).2
  | FinalizeMessage => finalizeMessage mb
  | BeginRead size => (beginRead size mb).2
  | ReadByte => (readByte mb).2
  end.

Fixpoint run (cs : list call) (mb : t) : t :=
  match cs with
  | [] => mb
  | c :: cs' => run cs' (step c mb)
  end.

(** The arguments of a call are values of their parameter types. *)
Definition call_ok (c : call) : Prop :=
  match c with
  | BeginMessage type => is_uint8 type
  | WriteByte v => is_uint8 v
  | BeginRead size => is_size size
  | FinalizeMessage | ReadByte => True
  end.

(** The states a program can bring a MessageBuffer to: constructed over an
    array of [capacity] bytes (which a transport may have filled with any
    bytes), then any calls with arguments of their parameter types. *)
Definition reachable (mb : t) : Prop :=
  ∃ buffer capacity cs,
    is_size capacity ∧ len buffer = capacity ∧ Forall is_uint8 buffer
    ∧ Forall call_ok cs ∧ mb = run cs (make buffer capacity).

(** What every call keeps: the array (of bytes) and its capacity are those
    given to the constructor, and the cursors are ordered inside
    [0, capacity]. *)
Definition bounded (mb : t) : Prop :=
  is_size (capacity_ mb) ∧ len (data_ mb) = capacity_ mb
  ∧ Forall is_uint8 (data_ mb)
  ∧ 0 <= tail_ mb ∧ tail_ mb <= head_ mb ∧ head_ mb <= capacity_ mb.

(** The results of [n] consecutive [readByte] calls that succeed exactly
    while the read cursor, starting at [first], is below [size], each
    returning the byte of [d] at the cursor. *)
Definition reads_below (d : list Z) (first size : Z) (n : nat) : list (option Z) :=
  (λ k, if first + k <? size then Some (load d (first + k)) else None)
    <$> seqZ 0 (Z.of_nat n).

(** [writeByte] for each byte of [vs] in turn; the results of the calls and
    the final object. *)
Fixpoint writeBytes (vs : list Z) (mb : t) : list bool * t :=
  match vs with
  | [] => ([], mb)
  | v :: vs' =>
      let '(r, mb1) := writeByte v mb in
      let '(rs, mb2) := writeBytes vs' mb1 in
      (r :: rs, mb2)
  end.

(** [n] calls of [readByte] in turn; the results of the calls and the final
    object. *)
Fixpoint readBytes (n : nat) (mb : t) : list (option Z) * t :=
  match n with
  | O => ([], mb)
  | S n' =>
      let '(r, mb1) := readByte mb in
      let '(rs, mb2) := readBytes n' mb1 in
      (r :: rs, mb2)
  end.

(** How many of [n] consecutive [readByte] calls succeed. *)
Definition successful_reads (n : nat) (mb : t) : Z :=
  len (filter is_Some (readBytes n mb).1).

(** The Writing state: a successful [beginMessage] on a reachable object,
    followed by [writeByte] calls only. *)
Definition writing (mb : t) : Prop :=
  ∃ mb0 type mb1 vs,
    reachable mb0 ∧ is_uint8 type ∧ Forall is_uint8 vs
    ∧ beginMessage type mb0 = (true, mb1) ∧ mb = (writeBytes vs mb1).2.

(** The Reading state for a received size: a successful [beginRead(size)]
    on a reachable object, followed by [readByte] calls only. *)
Definition reading (size : Z) (mb : t) : Prop :=
  ∃ mb0 mb1 n,
    reachable mb0 ∧ is_size size
    ∧ beginRead size mb0 = (true, mb1) ∧ mb = (readBytes n mb1).2.

End WithPlatform.
End MessageBuffer.

(** ** RingBuffer (src/ring_buffer.h) *)

Module RingBuffer.
Section WithElem.
Context {pf : Platform} {T : Type} `{Inhabited T}.

(** The template parameter [N]. *)
Variable N : Z.

Record t := mk {
  buf_ : list T;      (* internal storage array of size N *)
  head_ : Z;          (* index for next push *)
  tail_ : Z;          (* index for next pop *)
  count_ : Z          (* current number of elements *)
}.

(** [RingBuffer()]: the [N] slots hold default-constructed elements. *)
Definition make : t :=
  {| buf_ := replicate (Z.to_nat N) inhabitant;
     head_ := 0; tail_ := 0; count_ := 0 |}.

(** [push(const T&)] and [push(T&&)] store the same value and differ only
    in what is left in the argument. *)
Definition push (v : T) (rb : t) : bool * t :=
  if count_ rb =? N then (false, rb)
  else (true,
        {| buf_ := <[Z.to_nat (head_ rb) := v]> (buf_ rb);
           head_ := to_size (head_ rb + 1) mod N;
           tail_ := tail_ rb;
           count_ := to_size (count_ rb + 1) |}).

(** [pop(T& out)]: the slot moved from is outside the live window
    afterwards; the model leaves its old value in it. *)
Definition pop (rb : t) : option T * t :=
  if count_ rb =? 0 then (None, rb)
  else (Some (buf_ rb !!! Z.to_nat (tail_ rb)),
        {| buf_ := buf_ rb;
           head_ := head_ rb;
           tail_ := to_size (tail_ rb + 1) mod N;
           count_ := to_size (count_ rb - 1) |}).

Definition size (rb : t) : Z := count_ rb.
Definition capacity (rb : t) : Z := N.
Definition empty (rb : t) : bool := count_ rb =? 0.
Definition full (rb : t) : bool := count_ rb =? N.
Definition clear (rb : t) : t :=
  {| buf_ := buf_ rb; head_ := 0; tail_ := 0; count_ := 0 |}.

(** *** Sequences of calls and their results *)

Inductive call := Push (v : T) | Pop | Clear.
Inductive result := Pushed (ok : bool) | Popped (out : option T) | Cleared.

Definition step (c : call) (rb : t) : result * t :=
  match c with
  | Push v => let '(r, rb') := push v rb in (Pushed r, rb')
  | Pop => let '(r, rb') := pop rb in (Popped r, rb')
  | Clear => (Cleared, clear rb)
  end.

Fixpoint run (cs : list call) (rb : t) : list result * t :=
  match cs with
  | [] => ([], rb)
  | c :: cs' =>
      let '(r, rb1) := step c rb in
      let '(rs, rb2) := run cs' rb1 in
      (r :: rs, rb2)
  end.

Definition reachable (rb : t) : Prop := ∃ cs, rb = (run cs make).2.

(** The live elements, oldest first: [count_] slots from [tail_] on,
    indices taken modulo [N]. *)
Definition contents (rb : t) : list T :=
  (λ k, buf_ rb !!! Z.to_nat ((tail_ rb + k) mod N)) <$> seqZ 0 (count_ rb).

(** The representation invariant: [N] slots, indices below [N], at most
    [N] live elements, and [head_] is [count_] slots after [tail_]. *)
Definition ring_inv (rb : t) : Prop :=
  len (buf_ rb) = N
  ∧ 0 <= tail_ rb < N
  ∧ 0 <= count_ rb <= N
  ∧ head_ rb = (tail_ rb + count_ rb) mod N.

(** *** The queue of the specification

    A first-in-first-out queue of at most [N] elements, as the
    specification words it: a push appends when fewer than [N] elements are
    held and is refused otherwise; a pop removes the oldest element when
    there is one and is refused otherwise. *)
Definition queue_push (v : T) (q : list T) : bool * list T :=
  if len q <? N then (true, q ++ [v]) else (false, q).

Definition queue_pop (q : list T) : option T * list T :=
  match q with
  | [] => (None, [])
  | x :: q' => (Some x, q')
  end.

Definition queue_step (c : call) (q : list T) : result * list T :=
  match c with
  | Push v => let '(r, q') := queue_push v q in (Pushed r, q')
  | Pop => let '(r, q') := queue_pop q in (Popped r, q')
  | Clear => (Cleared, [])
  end.

Fixpoint queue_run (cs : list call) (q : list T) : list result * list T :=
  match cs with
  | [] => ([], q)
  | c :: cs' =>
      let '(r, q1) := queue_step c q in
      let '(rs, q2) := queue_run cs' q1 in
      (r :: rs, q2)
  end.

End WithElem.
End RingBuffer.

(** ** The factories (namespace [antBuffers] of ant_buffers.h) *)

Module antBuffers.

Definition make_byte_buffer (buffer : list Z) (capacity : Z) : ByteBuffer.t :=
  ByteBuffer.make buffer capacity.

Definition make_message_buffer (buffer : list Z) (capacity : Z) : MessageBuffer.t :=
  MessageBuffer.make buffer capacity.

End antBuffers.

(** * Properties *)

(** ** Integer types and the byte array *)

Section BasicFacts.
Context {pf : Platform}.

Lemma SIZE_MOD_min : 2 ^ 16 <= SIZE_MOD.
Proof.
  unfold SIZE_MOD. apply Z.pow_le_mono_r; [lia | apply size_bits_min].
Qed.

Lemma to_size_small z : is_size z → to_size z = z.
Proof. unfold is_size, to_size. intros Hz. by apply Z.mod_small. Qed.

End BasicFacts.

Lemma len_store a i v : len (store a i v) = len a.
Proof. unfold len, store. by rewrite length_insert. Qed.

Lemma load_store_eq a i v : 0 <= i < len a → load (store a i v) i = v.
Proof.
  unfold len, load, store. intros Hi.
  rewrite list_lookup_insert_eq; [done | lia].
Qed.

(** The byte the writers store for byte [k] of [v]. *)
Lemma stored_byte v k :
  0 <= k → to_uint8 (Z.land (Z.shiftr v (8 * k)) 255) = byte_of v k.
Proof.
  intros Hk. unfold to_uint8, byte_of.
  change 255 with (Z.ones 8). rewrite Z.land_ones by lia.
  rewrite Z.shiftr_div_pow2 by lia.
  change (2 ^ 8) with 256. by rewrite Z.mod_mod.
Qed.

Lemma stored_byte0 v : to_uint8 (Z.land v 255) = byte_of v 0.
Proof. rewrite <- (stored_byte v 0) by lia. by rewrite Z.shiftr_0_r. Qed.

Lemma byte_of_range v k : 0 <= byte_of v k < 256.
Proof. unfold byte_of. apply Z.mod_pos_bound. lia. Qed.

Lemma splice_nil a p : splice a p [] = a.
Proof.
  unfold splice, len. cbn [length app]. rewrite Z.add_0_r. apply take_drop.
Qed.

Lemma len_splice a p bs :
  0 <= p → p + len bs <= len a → len (splice a p bs) = len a.
Proof.
  unfold splice, len. intros Hp Hl.
  rewrite !length_app, length_take, length_drop. lia.
Qed.

(** A store right after the spliced bytes extends the splice. *)
Lemma store_splice_snoc a p bs v :
  0 <= p → p + len bs < len a →
  store (splice a p bs) (p + len bs) v = splice a p (bs ++ [v]).
Proof.
  unfold store, splice, len. intros Hp Hl.
  rewrite insert_app_r_alt by (rewrite length_take; lia).
  rewrite insert_app_r_alt by (rewrite length_take; lia).
  rewrite length_take, length_app. cbn [length].
  replace (Z.to_nat (p + Z.of_nat (length bs)) - Z.to_nat p `min` length a
           - length bs)%nat with 0%nat by lia.
  destruct (lookup_lt_is_Some_2 a (Z.to_nat (p + Z.of_nat (length bs))))
    as [x Hx]; [lia|].
  rewrite (drop_S _ _ _ Hx). cbn [insert list_insert].
  rewrite <- app_assoc. cbn [app].
  by replace (Z.to_nat (p + Z.of_nat (length bs + 1)))
    with (S (Z.to_nat (p + Z.of_nat (length bs)))) by lia.
Qed.

Lemma load_splice a p bs k :
  0 <= p → p + len bs <= len a → 0 <= k < len bs →
  load (splice a p bs) (p + k) = default 0 (bs !! Z.to_nat k).
Proof.
  unfold load, splice, len. intros Hp Hl Hk.
  rewrite lookup_app_r by (rewrite length_take; lia).
  rewrite length_take.
  replace (Z.to_nat (p + k) - Z.to_nat p `min` length a)%nat
    with (Z.to_nat k) by lia.
  rewrite lookup_app_l by lia. done.
Qed.

Lemma load_splice_at a p bs i :
  0 <= p → p + len bs <= len a → p <= i < p + len bs →
  load (splice a p bs) i = default 0 (bs !! Z.to_nat (i - p)).
Proof.
  intros Hp Hl Hi. rewrite <- (load_splice a p bs (i - p)) by lia.
  f_equal. lia.
Qed.

Lemma stored_byte1 v : to_uint8 (Z.land (Z.shiftr v 8) 255) = byte_of v 1.
Proof. exact (stored_byte v 1 ltac:(lia)). Qed.

Lemma stored_byte2 v : to_uint8 (Z.land (Z.shiftr v 16) 255) = byte_of v 2.
Proof. exact (stored_byte v 2 ltac:(lia)). Qed.

Lemma stored_byte3 v : to_uint8 (Z.land (Z.shiftr v 24) 255) = byte_of v 3.
Proof. exact (stored_byte v 3 ltac:(lia)). Qed.

(** Two and four stores at consecutive indices. *)
Lemma store2_splice a p b0 b1 :
  0 <= p → p + 2 <= len a →
  store (store a p b0) (p + 1) b1 = splice a p [b0; b1].
Proof.
  intros Hp Hl.
  rewrite <- (splice_nil a p) at 1.
  pose proof (store_splice_snoc a p [] b0 Hp) as E0.
  change (len (@nil Z)) with 0 in E0. rewrite Z.add_0_r in E0.
  rewrite E0 by lia. cbn [app].
  pose proof (store_splice_snoc a p [b0] b1 Hp) as E1.
  change (len [b0]) with 1 in E1. by rewrite E1 by lia.
Qed.

Lemma store4_splice a p b0 b1 b2 b3 :
  0 <= p → p + 4 <= len a →
  store (store (store (store a p b0) (p + 1) b1) (p + 2) b2) (p + 3) b3
  = splice a p [b0; b1; b2; b3].
Proof.
  intros Hp Hl. rewrite store2_splice by lia.
  pose proof (store_splice_snoc a p [b0; b1] b2 Hp) as E2.
  change (len [b0; b1]) with 2 in E2. rewrite E2 by lia. cbn [app].
  pose proof (store_splice_snoc a p [b0; b1; b2] b3 Hp) as E3.
  change (len [b0; b1; b2]) with 3 in E3. by rewrite E3 by lia.
Qed.

Lemma to_uint16_byte v k : to_uint16 (byte_of v k) = byte_of v k.
Proof.
  unfold to_uint16. apply Z.mod_small. pose proof (byte_of_range v k). lia.
Qed.

Lemma to_uint32_byte v k : to_uint32 (byte_of v k) = byte_of v k.
Proof.
  unfold to_uint32. apply Z.mod_small. pose proof (byte_of_range v k). lia.
Qed.

(** The decoders invert the byte split. *)
Lemma decode16_le v :
  is_uint16 v →
  to_uint16 (Z.lor (to_uint16 (byte_of v 0))
                   (Z.shiftl (to_uint16 (byte_of v 1)) 8)) = v.
Proof.
  intros Hv. rewrite !to_uint16_byte. unfold to_uint16, byte_of.
  change 256 with (2 ^ 8). cbn [Z.mul Pos.mul].
  rewrite <- (Z.mod_small v (2 ^ 16)) at 3 by done.
  Z.bitblast.
Qed.

Lemma decode16_be v :
  is_uint16 v →
  to_uint16 (Z.lor (Z.shiftl (to_uint16 (byte_of v 1)) 8)
                   (to_uint16 (byte_of v 0))) = v.
Proof. intros Hv. rewrite Z.lor_comm. by apply decode16_le. Qed.

Lemma decode32_le v :
  is_uint32 v →
  Z.lor (Z.lor (Z.lor
     (to_uint32 (byte_of v 0))
     (to_uint32 (Z.shiftl (to_uint32 (byte_of v 1)) 8)))
     (to_uint32 (Z.shiftl (to_uint32 (byte_of v 2)) 16)))
     (to_uint32 (Z.shiftl (to_uint32 (byte_of v 3)) 24)) = v.
Proof.
  intros Hv. rewrite !to_uint32_byte. unfold to_uint32, byte_of.
  change 256 with (2 ^ 8). cbn [Z.mul Pos.mul].
  rewrite <- (Z.mod_small v (2 ^ 32)) at 5 by done.
  Z.bitblast.
Qed.

Lemma decode32_be v :
  is_uint32 v →
  Z.lor (Z.lor (Z.lor
     (to_uint32 (Z.shiftl (to_uint32 (byte_of v 3)) 24))
     (to_uint32 (Z.shiftl (to_uint32 (byte_of v 2)) 16)))
     (to_uint32 (Z.shiftl (to_uint32 (byte_of v 1)) 8)))
     (to_uint32 (byte_of v 0)) = v.
Proof.
  intros Hv. rewrite <- (decode32_le v Hv) at 5.
  rewrite !to_uint32_byte. generalize (byte_of v 0) as b0.
  generalize (to_uint32 (byte_of v 1 ≪ 8)) as b1.
  generalize (to_uint32 (byte_of v 2 ≪ 16)) as b2.
  generalize (to_uint32 (byte_of v 3 ≪ 24)) as b3.
  intros. Z.bitblast.
Qed.

(** ** ByteBuffer *)

Module ByteBufferProofs.
Import ByteBuffer.
Section WithPlatform.
Context {pf : Platform}.

Lemma writeRemaining_bounded bb :
  bounded bb → writeRemaining bb = capacity_ bb - head_ bb.
Proof.
  intros (Hc & _ & Hh & _). unfold writeRemaining.
  destruct (Z.ltb_spec (head_ bb) (capacity_ bb)); [|lia].
  apply to_size_small. unfold is_size in *. lia.
Qed.

Lemma bb_readRemaining_bounded bb :
  bounded bb → readRemaining bb = Z.max 0 (head_ bb - tail_ bb).
Proof.
  intros (Hc & _ & Hh & Ht). unfold readRemaining.
  destruct (Z.ltb_spec (tail_ bb) (head_ bb)); [|lia].
  rewrite to_size_small; unfold is_size in *; lia.
Qed.

(** Unfolds one operation on a bounded object and splits on its bound
    check. *)
Ltac op_cases Hb :=
  unfold readUInt8, writeUInt8, readUInt16LE, readUInt16BE, writeUInt16LE,
    writeUInt16BE, readUInt32LE, readUInt32BE, writeUInt32LE, writeUInt32BE;
  rewrite ?(writeRemaining_bounded _ Hb), ?(bb_readRemaining_bounded _ Hb);
  match goal with
  | |- context [?a <? ?b] => destruct (Z.ltb_spec a b)
  end; cbn [fst snd set_head set_tail set_data data_ capacity_ head_ tail_].

Lemma bb_step_bounded c bb : bounded bb → bounded (step c bb).
Proof.
  intros Hb. pose proof Hb as (Hc & Hl & Hh & Ht).
  unfold bounded.
  destruct c; cbn [step]; unfold resetWrite, resetRead; try op_cases Hb;
    cbn [set_head set_tail set_data data_ capacity_ head_ tail_];
    rewrite ?len_store; try done;
    try (rewrite to_size_small by (unfold is_size in *; lia));
    unfold is_size in *; repeat split; try done; lia.
Qed.

Lemma step_cursor_invariant c bb :
  bounded bb → cursor_invariant bb →
  (c = ResetWrite → readPosition bb = 0) →
  cursor_invariant (step c bb).
Proof.
  intros Hb (Hr0 & Hrw & Hwc) Hreset. pose proof Hb as (Hc & Hl & Hh & Ht).
  unfold cursor_invariant, readPosition, writePosition, capacity in *.
  destruct c; cbn [step]; unfold resetWrite, resetRead; try op_cases Hb;
    cbn [set_head set_tail set_data data_ capacity_ head_ tail_];
    try done;
    try (rewrite to_size_small by (unfold is_size in *; lia));
    try lia.
  specialize (Hreset eq_refl). lia.
Qed.

Lemma bb_make_bounded buffer capacity :
  is_size capacity → len buffer = capacity → bounded (make buffer capacity).
Proof. intros Hc Hl. unfold bounded, is_size in *. cbn. lia. Qed.

Lemma bb_run_bounded cs bb : bounded bb → bounded (run cs bb).
Proof.
  revert bb. induction cs as [|c cs IH]; intros bb Hb; cbn [run]; [done|].
  apply IH. by apply bb_step_bounded.
Qed.

Lemma bb_reachable_bounded bb : reachable bb → bounded bb.
Proof.
  intros (buffer & capacity & cs & Hc & Hl & ->).
  apply bb_run_bounded. by apply bb_make_bounded.
Qed.

Lemma run_cursor_invariant cs bb :
  bounded bb → cursor_invariant bb → resetWrite_at_start cs bb = true →
  cursor_invariant (run cs bb).
Proof.
  revert bb. induction cs as [|c cs IH]; intros bb Hb Hinv Hrs; cbn [run]; [done|].
  cbn [resetWrite_at_start] in Hrs. apply andb_prop in Hrs as [Hc Hrs].
  apply IH; [by apply bb_step_bounded | | done].
  apply step_cursor_invariant; [done..|].
  intros ->. by apply Z.eqb_eq in Hc.
Qed.

(** *** The multi-byte writers *)

(** Reduces a writer on a bounded object with room for [w] bytes to the
    splice of its bytes. *)
Ltac writer_ok Hb w :=
  let Hc := fresh "Hc" in let Hl := fresh "Hl" in
  let Hh := fresh "Hh" in let Ht := fresh "Ht" in
  pose proof Hb as (Hc & Hl & Hh & Ht);
  unfold writeUInt16LE, writeUInt16BE, writeUInt32LE, writeUInt32BE;
  rewrite (writeRemaining_bounded _ Hb);
  match goal with
  | |- context [?a <? ?b] => destruct (Z.ltb_spec a b); [lia|]
  end;
  cbv zeta;
  rewrite !to_size_small by (unfold is_size in *; lia);
  rewrite ?stored_byte1, ?stored_byte2, ?stored_byte3, ?stored_byte0;
  rewrite ?store4_splice, ?store2_splice by lia;
  reflexivity.

Lemma writeUInt16LE_ok bb v :
  bounded bb → 2 <= capacity_ bb - head_ bb →
  writeUInt16LE v bb = (true, after_write bb [byte_of v 0; byte_of v 1]).
Proof. intros Hb Hw. writer_ok Hb 2. Qed.

Lemma writeUInt16BE_ok bb v :
  bounded bb → 2 <= capacity_ bb - head_ bb →
  writeUInt16BE v bb = (true, after_write bb [byte_of v 1; byte_of v 0]).
Proof. intros Hb Hw. writer_ok Hb 2. Qed.

Lemma writeUInt32LE_ok bb v :
  bounded bb → 4 <= capacity_ bb - head_ bb →
  writeUInt32LE v bb
  = (true, after_write bb [byte_of v 0; byte_of v 1; byte_of v 2; byte_of v 3]).
Proof. intros Hb Hw. writer_ok Hb 4. Qed.

Lemma writeUInt32BE_ok bb v :
  bounded bb → 4 <= capacity_ bb - head_ bb →
  writeUInt32BE v bb
  = (true, after_write bb [byte_of v 3; byte_of v 2; byte_of v 1; byte_of v 0]).
Proof. intros Hb Hw. writer_ok Hb 4. Qed.

Lemma after_write_bounded bb bs :
  bounded bb → len bs <= capacity_ bb - head_ bb → bounded (after_write bb bs).
Proof.
  intros (Hc & Hl & Hh & Ht) Hw. unfold bounded, after_write.
  cbn [data_ capacity_ head_ tail_].
  rewrite len_splice by lia. unfold is_size, len in *. lia.
Qed.

(** C1, as the code has it.  After every sequence of calls on a ByteBuffer
    constructed over an array of [capacity] bytes, both cursors lie in
    [0, capacity]; [readPosition() <= writePosition()] holds as well when
    every [resetWrite()] of the sequence was made at [readPosition() = 0].
    [resetWrite()] itself only sets the write cursor to 0 and leaves the
    read cursor where it was. *)
Theorem cursor_bounds_after_calls buffer capacity cs :
  is_size capacity → len buffer = capacity →
  let bb := run cs (make buffer capacity) in
  0 <= readPosition bb <= ByteBuffer.capacity bb
  ∧ 0 <= writePosition bb <= ByteBuffer.capacity bb
  ∧ (resetWrite_at_start cs (make buffer capacity) = true → cursor_invariant bb)
  ∧ writePosition (resetWrite bb) = 0
  ∧ readPosition (resetWrite bb) = readPosition bb.
Proof.
  intros Hc Hl bb.
  assert (Hb : bounded bb) by (apply bb_run_bounded; by apply bb_make_bounded).
  pose proof Hb as (_ & _ & Hh & Ht).
  unfold readPosition, writePosition, ByteBuffer.capacity.
  split; [lia|]. split; [lia|]. split; [|done].
  intros Hrs. apply run_cursor_invariant; [by apply bb_make_bounded | | done].
  unfold cursor_invariant, readPosition, writePosition, ByteBuffer.capacity.
  unfold is_size in Hc. cbn. lia.
Qed.

(** C8.  In every reachable state, [readRemaining() == writePosition()]
    right after [resetRead()], and [writeRemaining() == capacity()] and
    [readRemaining() == 0] right after [resetWrite()]. *)
Theorem reset_semantics bb :
  reachable bb →
  readRemaining (resetRead bb) = writePosition (resetRead bb)
  ∧ writeRemaining (resetWrite bb) = ByteBuffer.capacity (resetWrite bb)
  ∧ readRemaining (resetWrite bb) = 0.
Proof.
  intros Hr. pose proof (bb_reachable_bounded _ Hr) as (Hc & Hl & Hh & Ht).
  unfold readRemaining, writeRemaining, writePosition, ByteBuffer.capacity,
    resetRead, resetWrite.
  cbn [set_head set_tail data_ capacity_ head_ tail_].
  repeat split.
  - destruct (Z.ltb_spec 0 (head_ bb)); [|lia].
    rewrite Z.sub_0_r. apply to_size_small. unfold is_size in *. lia.
  - destruct (Z.ltb_spec 0 (capacity_ bb)); [|unfold is_size in *; lia].
    rewrite Z.sub_0_r. by apply to_size_small.
  - destruct (Z.ltb_spec (tail_ bb) 0); [lia | done].
Qed.

(** C4.  On a reachable ByteBuffer, a 16- or 32-bit write (LE or BE) with
    [writeRemaining() < width] returns [false] and leaves the whole object,
    write cursor and array included, as it was; with
    [writeRemaining() >= width] it returns [true], the [width] bytes of the
    value are in the array from the old write cursor on in the order of the
    variant, every other byte is unchanged and the write cursor is advanced
    by exactly [width]. *)
Theorem write_all_or_nothing bb v :
  reachable bb →
  (writeRemaining bb < 2 →
     writeUInt16LE v bb = (false, bb) ∧ writeUInt16BE v bb = (false, bb))
  ∧ (writeRemaining bb < 4 →
     writeUInt32LE v bb = (false, bb) ∧ writeUInt32BE v bb = (false, bb))
  ∧ (2 <= writeRemaining bb →
     writeUInt16LE v bb = (true, after_write bb [byte_of v 0; byte_of v 1])
     ∧ writeUInt16BE v bb = (true, after_write bb [byte_of v 1; byte_of v 0])
     ∧ writePosition (after_write bb [byte_of v 0; byte_of v 1])
       = writePosition bb + 2)
  ∧ (4 <= writeRemaining bb →
     writeUInt32LE v bb
     = (true, after_write bb [byte_of v 0; byte_of v 1; byte_of v 2; byte_of v 3])
     ∧ writeUInt32BE v bb
       = (true, after_write bb [byte_of v 3; byte_of v 2; byte_of v 1; byte_of v 0])
     ∧ writePosition
         (after_write bb [byte_of v 0; byte_of v 1; byte_of v 2; byte_of v 3])
       = writePosition bb + 4).
Proof.
  intros Hr. pose proof (bb_reachable_bounded _ Hr) as Hb.
  split; [|split; [|split]].
  - intros Hw. unfold writeUInt16LE, writeUInt16BE.
    by destruct (Z.ltb_spec (writeRemaining bb) 2); [|lia].
  - intros Hw. unfold writeUInt32LE, writeUInt32BE.
    by destruct (Z.ltb_spec (writeRemaining bb) 4); [|lia].
  - rewrite (writeRemaining_bounded _ Hb). intros Hw.
    by rewrite writeUInt16LE_ok, writeUInt16BE_ok.
  - rewrite (writeRemaining_bounded _ Hb). intros Hw.
    by rewrite writeUInt32LE_ok, writeUInt32BE_ok.
Qed.

(** *** Reading back what was written *)

(** Reduces a reader on the object left by a write of [bs] at a position
    equal to the read cursor to the decoding of [bs]. *)
Ltac reader_after_write Hb Ht Hw :=
  let Hb' := fresh "Hb'" in
  let Hc := fresh "Hc" in let Hl := fresh "Hl" in
  let Hh := fresh "Hh" in let Hr := fresh "Hr" in
  pose proof Hb as (Hc & Hl & Hh & Hr);
  match goal with
  | |- context [after_write ?bb ?bs] =>
      assert (Hb' : bounded (after_write bb bs))
        by (apply after_write_bounded; [done | exact Hw])
  end;
  unfold readUInt16LE, readUInt16BE, readUInt32LE, readUInt32BE;
  rewrite (bb_readRemaining_bounded _ Hb');
  cbn [after_write data_ capacity_ head_ tail_];
  match goal with
  | |- context [?a <? ?b] =>
      destruct (Z.ltb_spec a b); [unfold len in *; cbn [length] in *; lia|]
  end;
  cbv zeta; cbn [fst]; f_equal;
  rewrite !to_size_small by (unfold is_size in *; lia);
  rewrite !load_splice_at by (unfold len in *; cbn [length]; lia);
  rewrite Ht;
  replace (head_ _ - head_ _) with 0 by lia;
  replace (head_ _ + 1 - head_ _) with 1 by lia;
  try replace (head_ _ + 2 - head_ _) with 2 by lia;
  try replace (head_ _ + 3 - head_ _) with 3 by lia;
  cbn [Z.to_nat Pos.to_nat Pos.iter_op Nat.add lookup list_lookup default].

Lemma readUInt16LE_after_write bb v :
  bounded bb → tail_ bb = head_ bb → 2 <= capacity_ bb - head_ bb →
  is_uint16 v →
  (readUInt16LE (after_write bb [byte_of v 0; byte_of v 1])).1 = Some v.
Proof.
  intros Hb Ht Hw Hv. reader_after_write Hb Ht Hw. by apply decode16_le.
Qed.

Lemma readUInt16BE_after_write bb v :
  bounded bb → tail_ bb = head_ bb → 2 <= capacity_ bb - head_ bb →
  is_uint16 v →
  (readUInt16BE (after_write bb [byte_of v 1; byte_of v 0])).1 = Some v.
Proof.
  intros Hb Ht Hw Hv. reader_after_write Hb Ht Hw. by apply decode16_be.
Qed.

Lemma readUInt32LE_after_write bb v :
  bounded bb → tail_ bb = head_ bb → 4 <= capacity_ bb - head_ bb →
  is_uint32 v →
  (readUInt32LE
     (after_write bb [byte_of v 0; byte_of v 1; byte_of v 2; byte_of v 3])).1
  = Some v.
Proof.
  intros Hb Ht Hw Hv. reader_after_write Hb Ht Hw. by apply decode32_le.
Qed.

Lemma readUInt32BE_after_write bb v :
  bounded bb → tail_ bb = head_ bb → 4 <= capacity_ bb - head_ bb →
  is_uint32 v →
  (readUInt32BE
     (after_write bb [byte_of v 3; byte_of v 2; byte_of v 1; byte_of v 0])).1
  = Some v.
Proof.
  intros Hb Ht Hw Hv. reader_after_write Hb Ht Hw. by apply decode32_be.
Qed.

(** C5.  On a reachable ByteBuffer whose read cursor is at the write
    cursor, a 16-bit (32-bit) value written with [writeUInt16LE],
    [writeUInt16BE] ([writeUInt32LE], [writeUInt32BE]) into enough space is
    returned by the matching reader; and in a 4-byte buffer
    [writeUInt32LE(0x11223344)] leaves the bytes [0x44,0x33,0x22,0x11] and
    [writeUInt32BE(0xDEADBEEF)] the bytes [0xDE,0xAD,0xBE,0xEF]. *)
Theorem write_read_round_trip bb :
  reachable bb → readPosition bb = writePosition bb →
  (∀ v16, is_uint16 v16 → 2 <= writeRemaining bb →
     (writeUInt16LE v16 bb).1 = true
     ∧ (readUInt16LE (writeUInt16LE v16 bb).2).1 = Some v16
     ∧ (writeUInt16BE v16 bb).1 = true
     ∧ (readUInt16BE (writeUInt16BE v16 bb).2).1 = Some v16)
  ∧ (∀ v32, is_uint32 v32 → 4 <= writeRemaining bb →
     (writeUInt32LE v32 bb).1 = true
     ∧ (readUInt32LE (writeUInt32LE v32 bb).2).1 = Some v32
     ∧ (writeUInt32BE v32 bb).1 = true
     ∧ (readUInt32BE (writeUInt32BE v32 bb).2).1 = Some v32)
  ∧ (∀ buffer, len buffer = 4 →
     data_ (writeUInt32LE 0x11223344 (make buffer 4)).2
     = [0x44; 0x33; 0x22; 0x11]
     ∧ data_ (writeUInt32BE 0xDEADBEEF (make buffer 4)).2
       = [0xDE; 0xAD; 0xBE; 0xEF]).
Proof.
  intros Hr Hpos. pose proof (bb_reachable_bounded _ Hr) as Hb.
  unfold readPosition, writePosition in Hpos.
  rewrite (writeRemaining_bounded _ Hb).
  split; [|split].
  - intros v Hv Hw.
    rewrite writeUInt16LE_ok, writeUInt16BE_ok by done. cbn [fst snd].
    by rewrite readUInt16LE_after_write, readUInt16BE_after_write.
  - intros v Hv Hw.
    rewrite writeUInt32LE_ok, writeUInt32BE_ok by done. cbn [fst snd].
    by rewrite readUInt32LE_after_write, readUInt32BE_after_write.
  - intros buffer Hl.
    assert (Hm : bounded (make buffer 4)).
    { apply bb_make_bounded; [|done]. pose proof SIZE_MOD_min. unfold is_size. lia. }
    rewrite writeUInt32LE_ok, writeUInt32BE_ok by (cbn; done || lia).
    cbn [snd after_write data_ make head_]. unfold splice.
    change (len [_; _; _; _]) with 4.
    rewrite !drop_ge by (unfold len in Hl; lia).
    by vm_compute.
Qed.

End WithPlatform.

(** *** Concrete instances (32-bit [size_t]) *)

#[local] Existing Instance ilp32.

(** C1 as stated fails: on an 8-byte buffer, two [writeUInt8], one
    [readUInt8] and then [resetWrite()] leave [readPosition() = 1] above
    [writePosition() = 0]. *)
Lemma cursor_invariant_broken_by_resetWrite :
  let bb := run (pf:=ilp32) [WriteUInt8 1; WriteUInt8 2; ReadUInt8; ResetWrite]
              (make [0; 0; 0; 0; 0; 0; 0; 0] 8) in
  readPosition bb = 1 ∧ writePosition bb = 0 ∧ ¬ cursor_invariant bb.
Proof.
  cbv zeta. split_and!; [reflexivity | reflexivity |].
  unfold cursor_invariant. intros (_ & Hle & _).
  revert Hle. vm_compute. intros Hle. by apply Hle.
Qed.

Lemma is_size_ilp32 z : 0 <= z < 2 ^ 32 → is_size (pf:=ilp32) z.
Proof. done. Qed.

Lemma cursor_bounds_after_calls_witness :
  let bb := run (pf:=ilp32) [WriteUInt8 1; WriteUInt8 2; ReadUInt8; ResetWrite]
              (make [0; 0; 0; 0; 0; 0; 0; 0] 8) in
  0 <= readPosition bb <= capacity bb
  ∧ 0 <= writePosition bb <= capacity bb
  ∧ (resetWrite_at_start (pf:=ilp32)
       [WriteUInt8 1; WriteUInt8 2; ReadUInt8; ResetWrite]
       (make [0; 0; 0; 0; 0; 0; 0; 0] 8) = true → cursor_invariant bb)
  ∧ writePosition (resetWrite bb) = 0
  ∧ readPosition (resetWrite bb) = readPosition bb.
Proof.
  apply (cursor_bounds_after_calls (pf:=ilp32) [0; 0; 0; 0; 0; 0; 0; 0] 8
           [WriteUInt8 1; WriteUInt8 2; ReadUInt8; ResetWrite]).
  - apply is_size_ilp32. lia.
  - reflexivity.
Defined.

Lemma bb_reachable_run (buffer : list Z) (cs : list call) :
  0 <= len buffer < 2 ^ 32 →
  reachable (pf:=ilp32) (run cs (make buffer (len buffer))).
Proof.
  intros Hl. exists buffer, (len buffer), cs.
  split_and!; [by apply is_size_ilp32 | done | done].
Defined.

Lemma reset_semantics_witness :
  let bb := run (pf:=ilp32) [WriteUInt8 1; WriteUInt8 2; ReadUInt8]
              (make [0; 0; 0; 0; 0; 0; 0; 0] 8) in
  readRemaining (resetRead bb) = writePosition (resetRead bb)
  ∧ writeRemaining (resetWrite bb) = capacity (resetWrite bb)
  ∧ readRemaining (resetWrite bb) = 0.
Proof.
  apply (reset_semantics (pf:=ilp32)).
  apply (bb_reachable_run [0; 0; 0; 0; 0; 0; 0; 0]
           [WriteUInt8 1; WriteUInt8 2; ReadUInt8]).
  vm_compute. split; [discriminate | reflexivity].
Defined.

Lemma write_all_or_nothing_witness :
  let bb := make [0; 0; 0] 3 in
  writeUInt32LE (pf:=ilp32) 0x12345678 bb = (false, bb)
  ∧ writeUInt32BE (pf:=ilp32) 0x12345678 bb = (false, bb)
  ∧ writeUInt16LE (pf:=ilp32) 0x1234 bb
    = (true, after_write bb [byte_of 0x1234 0; byte_of 0x1234 1]).
Proof.
  cbv zeta.
  assert (Hr : reachable (pf:=ilp32) (make [0; 0; 0] 3)).
  { apply (bb_reachable_run [0; 0; 0] []).
    vm_compute. split; [discriminate | reflexivity]. }
  split_and!.
  - apply (write_all_or_nothing (pf:=ilp32) _ 0x12345678 Hr). vm_compute. reflexivity.
  - apply (write_all_or_nothing (pf:=ilp32) _ 0x12345678 Hr). vm_compute. reflexivity.
  - apply (write_all_or_nothing (pf:=ilp32) _ 0x1234 Hr). vm_compute. discriminate.
Defined.

Lemma write_read_round_trip_witness :
  let bb := make [0; 0; 0; 0] 4 in
  (readUInt32LE (pf:=ilp32) (writeUInt32LE 0x11223344 bb).2).1 = Some 0x11223344
  ∧ (readUInt16BE (pf:=ilp32) (writeUInt16BE 0xABCD bb).2).1 = Some 0xABCD
  ∧ data_ (writeUInt32BE (pf:=ilp32) 0xDEADBEEF bb).2 = [0xDE; 0xAD; 0xBE; 0xEF].
Proof.
  cbv zeta.
  assert (Hr : reachable (pf:=ilp32) (make [0; 0; 0; 0] 4)).
  { apply (bb_reachable_run [0; 0; 0; 0] []).
    vm_compute. split; [discriminate | reflexivity]. }
  pose proof (write_read_round_trip (pf:=ilp32) _ Hr eq_refl) as (H16 & H32 & Hex).
  assert (Hv32 : is_uint32 0x11223344) by (unfold is_uint32; lia).
  assert (Hv16 : is_uint16 0xABCD) by (unfold is_uint16; lia).
  assert (Hw4 : 4 <= writeRemaining (make [0; 0; 0; 0] 4))
    by (vm_compute; discriminate).
  assert (Hw2 : 2 <= writeRemaining (make [0; 0; 0; 0] 4))
    by (vm_compute; discriminate).
  destruct (H32 _ Hv32 Hw4) as (_ & Hle & _).
  destruct (H16 _ Hv16 Hw2) as (_ & _ & _ & Hbe).
  destruct (Hex [0; 0; 0; 0] eq_refl) as (_ & Hbytes).
  split_and!; [exact Hle | exact Hbe | exact Hbytes].
Defined.

End ByteBufferProofs.

(** ** MessageBuffer *)

Module MessageBufferProofs.
Import MessageBuffer.
Section WithPlatform.
Context {pf : Platform}.

Lemma small_is_size z : 0 <= z < 2 ^ 16 → is_size z.
Proof. pose proof SIZE_MOD_min. unfold is_size. lia. Qed.

Lemma writeByte_bounded mb v :
  bounded mb →
  writeByte v mb
  = if head_ mb <? capacity_ mb
    then (true, {| data_ := store (data_ mb) (head_ mb) v;
                   capacity_ := capacity_ mb;
                   head_ := head_ mb + 1;
                   tail_ := tail_ mb |})
    else (false, mb).
Proof.
  intros (Hc & Hl & Hd & Ht0 & Hth & Hh). unfold writeByte.
  destruct (Z.geb_spec (head_ mb) (capacity_ mb)),
    (Z.ltb_spec (head_ mb) (capacity_ mb)); try lia; [done|].
  rewrite to_size_small; [done | unfold is_size in *; lia].
Qed.

Lemma readByte_bounded mb :
  bounded mb →
  readByte mb
  = if tail_ mb <? head_ mb
    then (Some (load (data_ mb) (tail_ mb)),
          {| data_ := data_ mb;
             capacity_ := capacity_ mb;
             head_ := head_ mb;
             tail_ := tail_ mb + 1 |})
    else (None, mb).
Proof.
  intros (Hc & Hl & Hd & Ht0 & Hth & Hh). unfold readByte.
  destruct (Z.geb_spec (tail_ mb) (head_ mb)),
    (Z.ltb_spec (tail_ mb) (head_ mb)); try lia; [done|].
  rewrite to_size_small; [done | unfold is_size in *; lia].
Qed.

Lemma Forall_store a i v :
  Forall is_uint8 a → is_uint8 v → Forall is_uint8 (store a i v).
Proof. intros Ha Hv. unfold store. by apply Forall_insert. Qed.

Lemma to_uint8_is_uint8 z : is_uint8 (to_uint8 z).
Proof. unfold is_uint8, to_uint8. apply Z.mod_pos_bound. lia. Qed.

Lemma mb_step_bounded c mb : call_ok c → bounded mb → bounded (step c mb).
Proof.
  intros Hok Hb. pose proof Hb as (Hc & Hl & Hd & Ht0 & Hth & Hh).
  destruct c as [type|v| |size|]; cbn [step call_ok] in *.
  - unfold beginMessage, headerSize_.
    destruct (Z.ltb_spec (capacity_ mb) 2); [done|].
    unfold bounded. cbn [snd data_ capacity_ head_ tail_].
    rewrite !len_store. split_and!; try done; try lia.
    apply Forall_store; [by apply Forall_store|]. unfold is_uint8. lia.
  - rewrite (writeByte_bounded _ _ Hb).
    destruct (Z.ltb_spec (head_ mb) (capacity_ mb)); [|done].
    unfold bounded. cbn [snd data_ capacity_ head_ tail_].
    rewrite len_store. split_and!; try done; try lia.
    by apply Forall_store.
  - unfold finalizeMessage, bounded. cbn [data_ capacity_ head_ tail_].
    rewrite len_store. split_and!; try done.
    apply Forall_store; [done | apply to_uint8_is_uint8].
  - unfold beginRead, headerSize_.
    destruct (Z.ltb_spec size 2), (Z.gtb_spec size (capacity_ mb));
      cbn [orb snd]; done.
  - rewrite (readByte_bounded _ Hb).
    destruct (Z.ltb_spec (tail_ mb) (head_ mb)); [|done].
    unfold bounded. cbn [snd data_ capacity_ head_ tail_].
    split_and!; try done; lia.
Qed.

Lemma mb_make_bounded buffer capacity :
  is_size capacity → len buffer = capacity → Forall is_uint8 buffer →
  bounded (make buffer capacity).
Proof.
  intros Hc Hl Hd. unfold bounded, is_size in *. cbn.
  split_and!; try done; lia.
Qed.

Lemma mb_run_bounded cs mb : Forall call_ok cs → bounded mb → bounded (run cs mb).
Proof.
  revert mb. induction cs as [|c cs IH]; intros mb Hcs Hb; cbn [run]; [done|].
  apply Forall_cons in Hcs as [Hc Hcs].
  apply IH; [done|]. by apply mb_step_bounded.
Qed.

Lemma mb_reachable_bounded mb : reachable mb → bounded mb.
Proof.
  intros (buffer & capacity & cs & Hc & Hl & Hd & Hcs & ->).
  apply mb_run_bounded; [done|]. by apply mb_make_bounded.
Qed.

(** C7.  [beginRead(size)] returns [false] and leaves the object, both
    cursors included, as it was when [size < 2] or [size > capacity]; for
    every [size] with [2 <= size <= capacity] it returns [true], sets the
    write-side cursor to [size] and the read cursor to 2. *)
Theorem beginRead_sizes mb sz :
  2 <= capacity_ mb →
  (sz < 2 ∨ sz > capacity_ mb → beginRead sz mb = (false, mb))
  ∧ (2 <= sz <= capacity_ mb →
     beginRead sz mb
     = (true, {| data_ := data_ mb; capacity_ := capacity_ mb;
                 head_ := sz; tail_ := 2 |})).
Proof.
  intros Hcap. unfold beginRead, headerSize_.
  destruct (Z.ltb_spec sz 2), (Z.gtb_spec sz (capacity_ mb)); cbn [orb];
    split; intros; done || lia.
Qed.

(** *** Runs of [writeByte] *)

Lemma splice_cons a p v vs :
  0 <= p < len a →
  splice (store a p v) (p + 1) vs = splice a p (v :: vs).
Proof.
  intros Hp. unfold splice, store, len in *.
  destruct (lookup_lt_is_Some_2 a (Z.to_nat p)) as [x Hx]; [lia|].
  replace (Z.to_nat (p + 1)) with (S (Z.to_nat p)) by lia.
  rewrite take_insert_lt by lia.
  rewrite (take_S_r _ _ _ Hx).
  rewrite insert_app_r_alt by (rewrite length_take; lia).
  rewrite length_take.
  replace (Z.to_nat p - Z.to_nat p `min` length a)%nat with 0%nat by lia.
  cbn [insert list_insert length].
  rewrite drop_insert_lt by lia.
  rewrite <- app_assoc. cbn [app].
  do 3 f_equal. f_equal. lia.
Qed.

Lemma writeBytes_fits vs mb :
  bounded mb → Forall is_uint8 vs → head_ mb + len vs <= capacity_ mb →
  writeBytes vs mb
  = (replicate (length vs) true,
     {| data_ := splice (data_ mb) (head_ mb) vs;
        capacity_ := capacity_ mb;
        head_ := head_ mb + len vs;
        tail_ := tail_ mb |}).
Proof.
  revert mb. induction vs as [|v vs IH]; intros mb Hb Hvs Hfit.
  - cbn [writeBytes length replicate]. rewrite splice_nil.
    change (len (@nil Z)) with 0. rewrite Z.add_0_r. by destruct mb.
  - apply Forall_cons in Hvs as [Hv Hvs].
    pose proof (mb_step_bounded (WriteByte v) mb Hv Hb) as Hb1.
    cbn [step] in Hb1. cbn [writeBytes].
    rewrite (writeByte_bounded _ _ Hb) in Hb1 |- *.
    pose proof Hb as (Hc & Hl & Hd & Ht0 & Hth & Hh).
    assert (Hlen : len (v :: vs) = 1 + len vs) by (unfold len; cbn [length]; lia).
    rewrite Hlen in *.
    assert (0 <= len vs) by (unfold len; lia).
    destruct (Z.ltb_spec (head_ mb) (capacity_ mb)); [|lia].
    cbn [snd] in Hb1. rewrite (IH _ Hb1 Hvs) by (cbn [head_ capacity_]; lia).
    cbn [data_ capacity_ head_ tail_ length replicate].
    rewrite splice_cons by lia.
    do 2 f_equal. lia.
Qed.

Lemma writeBytes_bounded vs mb :
  bounded mb → Forall is_uint8 vs →
  bounded (writeBytes vs mb).2 ∧ head_ mb <= head_ (writeBytes vs mb).2.
Proof.
  revert mb. induction vs as [|v vs IH]; intros mb Hb Hvs.
  - cbn [writeBytes snd]. split; [done | lia].
  - apply Forall_cons in Hvs as [Hv Hvs].
    pose proof (mb_step_bounded (WriteByte v) mb Hv Hb) as Hb1.
    cbn [step] in Hb1. cbn [writeBytes].
    assert (Hh1 : head_ mb <= head_ (writeByte v mb).2).
    { rewrite (writeByte_bounded _ _ Hb).
      destruct (Z.ltb_spec (head_ mb) (capacity_ mb)); cbn [snd head_]; lia. }
    destruct (writeByte v mb) as [r mb1]. cbn [snd] in *.
    specialize (IH mb1 Hb1 Hvs).
    destruct (writeBytes vs mb1) as [rs mb2]. cbn [snd] in *.
    split; [tauto | lia].
Qed.

(** In the Writing state the header is reserved and the cursors are in
    range. *)
Lemma writing_bounded mb : writing mb → bounded mb ∧ 2 <= head_ mb.
Proof.
  intros (mb0 & type & mb1 & vs & Hr & Hty & Hvs & Hbegin & ->).
  pose proof (mb_reachable_bounded _ Hr) as Hb0.
  pose proof (mb_step_bounded (BeginMessage type) mb0 Hty Hb0) as Hb1.
  cbn [step] in Hb1. rewrite Hbegin in Hb1. cbn [snd] in Hb1.
  assert (head_ mb1 = 2) as Hh1.
  { unfold beginMessage, headerSize_ in Hbegin.
    destruct (capacity_ mb0 <? 2); [done|]. by injection Hbegin as <-. }
  destruct (writeBytes_bounded vs mb1 Hb1 Hvs) as [Hb Hh].
  split; [done | lia].
Qed.

(** The length byte [finalizeMessage] commits in the Writing state. *)
Lemma finalizeMessage_writing mb :
  bounded mb → 2 <= head_ mb →
  finalizeMessage mb
  = {| data_ := store (data_ mb) 1 (Z.min (head_ mb - 2) 255);
       capacity_ := capacity_ mb;
       head_ := head_ mb;
       tail_ := tail_ mb |}.
Proof.
  intros (Hc & Hl & Hd & Ht0 & Hth & Hh) H2.
  unfold finalizeMessage, headerSize_.
  rewrite to_size_small by (unfold is_size in *; lia).
  f_equal. f_equal.
  destruct (Z.gtb_spec (head_ mb - 2) 255); unfold to_uint8;
    rewrite Z.mod_small; lia.
Qed.

(** C3.  In the Writing state [finalizeMessage()] (a [void] function with
    no failure result) writes [min(writeCursor - 2, 255)] into header byte
    1 and changes nothing else: [size()] and every other byte of the array
    stay as they are.  With more than 255 payload bytes appended (300, say)
    on an array that holds them, [payloadLength()] is exactly 255
    afterwards while [size()] counts all of them and all of them are still
    in the array. *)
Theorem finalize_clamps_length mb :
  writing mb →
  payloadLength (finalizeMessage mb) = Z.min (size mb - 2) 255
  ∧ size (finalizeMessage mb) = size mb
  ∧ (∀ i, i ≠ 1 → load (data (finalizeMessage mb)) i = load (data mb) i)
  ∧ (∀ buffer capacity type vs,
       is_size capacity → len buffer = capacity → Forall is_uint8 buffer →
       is_uint8 type → Forall is_uint8 vs →
       255 < len vs → 2 + len vs <= capacity →
       let m := finalizeMessage
                  (writeBytes vs (beginMessage type (make buffer capacity)).2).2 in
       payloadLength m = 255
       ∧ size m = 2 + len vs
       ∧ take (Z.to_nat (2 + len vs)) (data m) = type :: 255 :: vs).
Proof.
  intros Hw. destruct (writing_bounded _ Hw) as [Hb H2].
  pose proof Hb as (Hc & Hl & Hd & Ht0 & Hth & Hh).
  rewrite (finalizeMessage_writing _ Hb H2).
  unfold payloadLength, size, data. cbn [data_ head_].
  split_and!.
  - apply load_store_eq. lia.
  - done.
  - intros i Hi. unfold load, store.
    rewrite list_lookup_insert_ne; [done | lia].
  - clear dependent mb.
    intros buffer capacity type vs Hc Hl Hd Hty Hvs Hlong Hfit.
    pose proof (mb_make_bounded buffer capacity Hc Hl Hd) as Hb0.
    pose proof (mb_step_bounded (BeginMessage type) _ Hty Hb0) as Hb1.
    cbn [step] in Hb1. revert Hb1.
    unfold beginMessage, headerSize_. cbn [make capacity_ data_].
    destruct (Z.ltb_spec capacity 2); [lia|]. cbn [snd]. intros Hb1.
    set (mb1 := {| data_ := store (store buffer 0 type) 1 0;
                   capacity_ := capacity; head_ := 2; tail_ := 0 |}) in *.
    destruct (writeBytes_bounded vs mb1 Hb1 Hvs) as [Hb2 _].
    rewrite (writeBytes_fits vs mb1 Hb1 Hvs) in Hb2 |- * by (cbn; lia).
    cbn [snd] in Hb2 |- *.
    rewrite (finalizeMessage_writing _ Hb2) by (cbn; unfold len; lia).
    subst mb1.
    cbn [data_ head_].
    rewrite Z.min_r by lia.
    change 2 with (1 + 1) at 3.
    rewrite splice_cons by (rewrite len_store; lia).
    change 1 with (0 + 1) at 3.
    rewrite splice_cons by lia.
    unfold splice, store.
    change (Z.to_nat 0) with 0%nat. change (Z.to_nat 1) with 1%nat.
    rewrite take_0. cbn [app insert list_insert].
    split_and!.
    + done.
    + done.
    + replace (Z.to_nat (2 + len vs)) with (S (S (length vs)))
        by (unfold len; lia).
      rewrite !firstn_cons. by rewrite take_app_length.
Qed.

(** *** Single calls on an object given by its fields *)

Lemma writeByte_eval d c h t v :
  0 <= h < c → h + 1 < 2 ^ 16 →
  writeByte v (mk d c h t) = (true, mk (store d h v) c (h + 1) t).
Proof.
  intros Hh Hs. unfold writeByte. cbn [data_ capacity_ head_ tail_].
  destruct (Z.geb_spec h c); [lia|].
  by rewrite to_size_small by (apply small_is_size; lia).
Qed.

Lemma readByte_eval d c h t :
  0 <= t < h → t + 1 < 2 ^ 16 →
  readByte (mk d c h t) = (Some (load d t), mk d c h (t + 1)).
Proof.
  intros Ht Hs. unfold readByte. cbn [data_ capacity_ head_ tail_].
  destruct (Z.geb_spec t h); [lia|].
  by rewrite to_size_small by (apply small_is_size; lia).
Qed.

Lemma readByte_end d c h t :
  h <= t → readByte (mk d c h t) = (None, mk d c h t).
Proof.
  intros Ht. unfold readByte. cbn [data_ capacity_ head_ tail_].
  by destruct (Z.geb_spec t h); [|lia].
Qed.

Lemma finalizeMessage_eval d c h t :
  2 <= h < 2 ^ 16 →
  finalizeMessage (mk d c h t) = mk (store d 1 (Z.min (h - 2) 255)) c h t.
Proof.
  intros Hh. unfold finalizeMessage, headerSize_.
  cbn [data_ capacity_ head_ tail_].
  rewrite to_size_small by (apply small_is_size; lia).
  f_equal. f_equal.
  destruct (Z.gtb_spec (h - 2) 255); unfold to_uint8;
    rewrite Z.mod_small; lia.
Qed.

(** C2.  On a MessageBuffer over an 8-byte array, [beginMessage(0x42)],
    [writeByte(0x11)], [writeByte(0x22)], [finalizeMessage()] all succeed
    and leave [size() == 4] and the bytes [0x42, 2, 0x11, 0x22] at the
    start of [data()]; [beginRead(4)] on it then succeeds with
    [messageType() == 0x42] and [payloadLength() == 2], two [readByte]
    calls return 0x11 and 0x22, and a third one fails. *)
Theorem framing_round_trip buffer :
  len buffer = 8 →
  let mb0 := make buffer 8 in
  let mb1 := (beginMessage 0x42 mb0).2 in
  let mb2 := (writeByte 0x11 mb1).2 in
  let mb3 := (writeByte 0x22 mb2).2 in
  let mb4 := finalizeMessage mb3 in
  let mb5 := (beginRead 4 mb4).2 in
  let mb6 := (readByte mb5).2 in
  let mb7 := (readByte mb6).2 in
  (beginMessage 0x42 mb0).1 = true
  ∧ (writeByte 0x11 mb1).1 = true
  ∧ (writeByte 0x22 mb2).1 = true
  ∧ size mb4 = 4
  ∧ take 4 (data mb4) = [0x42; 2; 0x11; 0x22]
  ∧ (beginRead 4 mb4).1 = true
  ∧ messageType mb5 = 0x42
  ∧ payloadLength mb5 = 2
  ∧ (readByte mb5).1 = Some 0x11
  ∧ (readByte mb6).1 = Some 0x22
  ∧ (readByte mb7).1 = None.
Proof.
  intros Hl.
  destruct buffer as [|b0 [|b1 [|b2 [|b3 [|b4 [|b5 [|b6 [|b7 [|b8 rest]]]]]]]]];
    try discriminate Hl.
  2: { unfold len in Hl. cbn [length] in Hl. lia. }
  clear Hl. cbv zeta.
  assert (beginMessage 0x42 (make [b0; b1; b2; b3; b4; b5; b6; b7] 8)
          = (true, mk [0x42; 0; b2; b3; b4; b5; b6; b7] 8 2 0)) as -> by done.
  cbn [fst snd].
  do 2 (rewrite writeByte_eval by lia; cbn [fst snd]).
  rewrite finalizeMessage_eval by lia.
  unfold size, data, messageType, payloadLength. cbn [head_ data_].
  assert (∀ d, beginRead 4 (mk d 8 (2 + 1 + 1) 0) = (true, mk d 8 4 2))
    as -> by done.
  cbn [fst snd].
  do 2 (rewrite readByte_eval by lia; cbn [fst snd]).
  rewrite readByte_end by lia. cbn [fst snd data_].
  split_and!; reflexivity.
Qed.

(** *** Runs of [readByte] *)

Lemma reads_below_S d first sz n :
  reads_below d first sz (S n)
  = (if first <? sz then Some (load d first) else None)
      :: reads_below d (first + 1) sz n.
Proof.
  unfold reads_below. rewrite Nat2Z.inj_succ, seqZ_cons by lia.
  rewrite Z.pred_succ, fmap_cons, Z.add_0_r. f_equal.
  change (Z.succ 0) with (1 + 0). rewrite <- fmap_add_seqZ, <- list_fmap_compose.
  apply list_fmap_ext. intros _ k _. cbn.
  by replace (first + 1 + k) with (first + (1 + k)) by lia.
Qed.

Lemma reads_below_ge d first sz n :
  sz <= first → reads_below d first sz n = replicate n None.
Proof.
  revert first. induction n as [|n IH]; intros first Hge; [done|].
  rewrite reads_below_S, IH by lia.
  by destruct (Z.ltb_spec first sz); [lia|].
Qed.

Lemma readBytes_bounded n mb :
  bounded mb →
  readBytes n mb
  = (reads_below (data_ mb) (tail_ mb) (head_ mb) n,
     {| data_ := data_ mb;
        capacity_ := capacity_ mb;
        head_ := head_ mb;
        tail_ := Z.min (tail_ mb + Z.of_nat n) (head_ mb) |}).
Proof.
  revert mb. induction n as [|n IH]; intros mb Hb.
  - pose proof Hb as (_ & _ & _ & _ & Hth & _).
    cbn [readBytes]. rewrite Z.add_0_r, Z.min_l by done. by destruct mb.
  - pose proof (mb_step_bounded ReadByte mb I Hb) as Hb1. cbn [step] in Hb1.
    pose proof Hb as (_ & _ & _ & _ & Hth & _).
    cbn [readBytes]. rewrite (readByte_bounded _ Hb) in Hb1 |- *.
    rewrite reads_below_S.
    destruct (Z.ltb_spec (tail_ mb) (head_ mb)); cbn [snd] in Hb1.
    + rewrite (IH _ Hb1). cbn [data_ capacity_ head_ tail_].
      do 2 f_equal. lia.
    + rewrite (IH _ Hb). rewrite !reads_below_ge by lia.
      do 2 f_equal. lia.
Qed.

Lemma count_reads_below d first sz n :
  first <= sz →
  len (filter is_Some (reads_below d first sz n))
  = Z.min (Z.of_nat n) (sz - first).
Proof.
  revert first. induction n as [|n IH]; intros first Hle.
  - change (reads_below d first sz 0) with (@nil (option Z)).
    rewrite filter_nil. unfold len. cbn [length]. lia.
  - rewrite reads_below_S. destruct (Z.ltb_spec first sz).
    + rewrite filter_cons_True by done.
      unfold len in *. cbn [length]. rewrite Nat2Z.inj_succ, IH by lia. lia.
    + rewrite filter_cons_False by (by intros [? ?]).
      rewrite reads_below_ge by lia.
      assert (filter is_Some (replicate n (@None Z)) = []) as ->.
      { clear. induction n as [|n IH]; [done|]. cbn [replicate].
        by rewrite filter_cons_False by (by intros [? ?]). }
      unfold len. cbn [length]. lia.
Qed.

(** In the Reading state the write-side cursor is the received size and
    the read cursor lies between the header and it. *)
Lemma reading_bounded sz mb :
  reading sz mb → bounded mb ∧ head_ mb = sz ∧ 2 <= tail_ mb.
Proof.
  intros (mb0 & mb1 & n & Hr & Hsz & Hbegin & ->).
  pose proof (mb_reachable_bounded _ Hr) as Hb0.
  pose proof (mb_step_bounded (BeginRead sz) mb0 Hsz Hb0) as Hb1.
  cbn [step] in Hb1. rewrite Hbegin in Hb1. cbn [snd] in Hb1.
  assert (head_ mb1 = sz ∧ tail_ mb1 = 2 ∧ 2 <= sz) as (Hh1 & Ht1 & H2).
  { unfold beginRead, headerSize_ in Hbegin.
    destruct (Z.ltb_spec sz 2), (Z.gtb_spec sz (capacity_ mb0));
      cbn [orb] in Hbegin; try done.
    by injection Hbegin as <-. }
  rewrite (readBytes_bounded _ _ Hb1). cbn [snd head_ tail_].
  destruct Hb1 as (Hc & Hl & Hd & Ht0 & Hth & Hh).
  unfold bounded. cbn [data_ capacity_ head_ tail_].
  split_and!; done || lia.
Qed.

(** C6.  In the Reading state for a received size [sz], [readByte]
    succeeds, returning the byte at the read cursor and advancing the
    cursor by one, exactly while the read cursor is below [sz]; at [sz] it
    fails and leaves the object as it is.  The header's declared
    [payloadLength()] plays no part: bytes past [2 + payloadLength()] are
    still returned up to index [sz - 1], and at [sz] the call fails even
    when [2 + payloadLength()] is larger. *)
Theorem readByte_bounded_by_received_size sz mb :
  reading sz mb →
  size mb = sz ∧ 2 <= tail_ mb <= sz
  ∧ (tail_ mb < sz →
     readByte mb
     = (Some (load (data mb) (tail_ mb)),
        {| data_ := data_ mb; capacity_ := capacity_ mb;
           head_ := head_ mb; tail_ := tail_ mb + 1 |}))
  ∧ (sz <= tail_ mb → readByte mb = (None, mb))
  ∧ (∀ n, (readBytes n mb).1 = reads_below (data mb) (tail_ mb) sz n)
  ∧ (2 + payloadLength mb <= tail_ mb < sz →
     (readByte mb).1 = Some (load (data mb) (tail_ mb)))
  ∧ (tail_ mb = sz → sz < 2 + payloadLength mb → readByte mb = (None, mb)).
Proof.
  intros Hrd. destruct (reading_bounded _ _ Hrd) as (Hb & Hh & Ht).
  pose proof Hb as (_ & _ & _ & _ & Hth & _).
  unfold size, data. rewrite (readByte_bounded _ Hb), Hh in *.
  split_and!; try done; try lia.
  - intros Hlt. by destruct (Z.ltb_spec (tail_ mb) sz); [|lia].
  - intros Hge. by destruct (Z.ltb_spec (tail_ mb) sz); [lia|].
  - intros n. by rewrite (readBytes_bounded _ _ Hb), Hh.
  - intros Hlt. by destruct (Z.ltb_spec (tail_ mb) sz); [|lia].
  - intros Heq _. by destruct (Z.ltb_spec (tail_ mb) sz); [lia|].
Qed.

Lemma load_is_uint8 a i : Forall is_uint8 a → is_uint8 (load a i).
Proof.
  intros Ha. unfold load.
  destruct (a !! Z.to_nat i) as [x|] eqn:Hx; cbn [default].
  - by eapply Forall_lookup_1.
  - unfold is_uint8. lia.
Qed.

Lemma mb_readRemaining_bounded mb :
  bounded mb → readRemaining mb = Z.max 0 (2 + payloadLength mb - tail_ mb).
Proof.
  intros (Hc & Hl & Hd & Ht0 & Hth & Hh).
  pose proof (load_is_uint8 (data_ mb) 1 Hd) as Hpl.
  unfold readRemaining, payloadLength, headerSize_ in *.
  unfold is_uint8 in Hpl.
  rewrite (to_size_small (2 + _)) by (apply small_is_size; lia).
  destruct (Z.ltb_spec (tail_ mb) (2 + load (data_ mb) 1)); [|lia].
  rewrite to_size_small by (apply small_is_size; lia). lia.
Qed.

(** C10.  In every reachable state [readRemaining()] is
    [max(0, 2 + payloadLength() - readCursor)]; it reads the header's
    length byte and the read cursor only, so the received size (the
    write-side cursor) has no influence on it.  In the Reading state for a
    received size [sz < 2 + payloadLength()], exactly [sz - readCursor]
    further [readByte] calls succeed however many are made, which is fewer
    than [readRemaining()] reports. *)
Theorem readRemaining_declared_length mb :
  reachable mb →
  readRemaining mb = Z.max 0 (2 + payloadLength mb - tail_ mb)
  ∧ (∀ h, readRemaining {| data_ := data_ mb; capacity_ := capacity_ mb;
                           head_ := h; tail_ := tail_ mb |}
          = readRemaining mb)
  ∧ (∀ sz, reading sz mb → sz < 2 + payloadLength mb →
       ∀ n, successful_reads n mb = Z.min (Z.of_nat n) (sz - tail_ mb)
            ∧ successful_reads n mb < readRemaining mb).
Proof.
  intros Hr. pose proof (mb_reachable_bounded _ Hr) as Hb.
  split_and!.
  - by apply mb_readRemaining_bounded.
  - done.
  - intros sz Hrd Hshort n.
    destruct (reading_bounded _ _ Hrd) as (_ & Hh & Ht).
    pose proof Hb as (_ & _ & _ & _ & Hth & _).
    assert (successful_reads n mb = Z.min (Z.of_nat n) (sz - tail_ mb)) as Hn.
    { unfold successful_reads. rewrite (readBytes_bounded _ _ Hb). cbn [fst].
      rewrite Hh. apply count_reads_below. lia. }
    split; [done|].
    rewrite Hn, (mb_readRemaining_bounded _ Hb). lia.
Qed.

End WithPlatform.

(** *** Concrete instances (32-bit [size_t]) *)

#[local] Existing Instance ilp32.

Ltac bytes_ok := repeat (constructor; [unfold is_uint8; lia|]); constructor.
Ltac size_ok := unfold is_size, SIZE_MOD; cbn [size_bits ilp32]; lia.

Lemma mb_reachable_make (buffer : list Z) :
  0 <= len buffer < 2 ^ 32 → Forall is_uint8 buffer →
  reachable (make buffer (len buffer)).
Proof.
  intros Hl Hd. exists buffer, (len buffer), [].
  split_and!; [exact Hl | reflexivity | exact Hd | constructor | reflexivity].
Defined.

Lemma framing_round_trip_witness :
  let mb4 := finalizeMessage
               (writeByte 0x22
                  (writeByte 0x11
                     (beginMessage 0x42 (make [0; 0; 0; 0; 0; 0; 0; 0] 8)).2).2).2 in
  size mb4 = 4 ∧ take 4 (data mb4) = [0x42; 2; 0x11; 0x22].
Proof.
  pose proof (framing_round_trip [0; 0; 0; 0; 0; 0; 0; 0] eq_refl) as Hrt.
  cbv zeta in Hrt |- *.
  destruct Hrt as (_ & _ & _ & Hs & Hd & _).
  split; [exact Hs | exact Hd].
Defined.

Lemma finalize_clamps_length_witness :
  payloadLength
    (finalizeMessage
       (writeBytes [0x11; 0x22]
          (beginMessage 0x42 (make [0; 0; 0; 0; 0; 0; 0; 0] 8)).2).2)
  = Z.min
      (size
         (writeBytes [0x11; 0x22]
            (beginMessage 0x42 (make [0; 0; 0; 0; 0; 0; 0; 0] 8)).2).2 - 2)
      255
  ∧ (let m := finalizeMessage
                (writeBytes (replicate 300 0)
                   (beginMessage 0x77 (make (replicate 302 0) 302)).2).2 in
     payloadLength m = 255
     ∧ size m = 2 + len (replicate 300 0)
     ∧ take (Z.to_nat (2 + len (replicate 300 0))) (data m)
       = 0x77 :: 255 :: replicate 300 0).
Proof.
  assert (Hw : writing
                 (writeBytes [0x11; 0x22]
                    (beginMessage 0x42 (make [0; 0; 0; 0; 0; 0; 0; 0] 8)).2).2).
  { exists (make [0; 0; 0; 0; 0; 0; 0; 0] 8), 0x42,
      (beginMessage 0x42 (make [0; 0; 0; 0; 0; 0; 0; 0] 8)).2, [0x11; 0x22].
    split_and!.
    - apply (mb_reachable_make [0; 0; 0; 0; 0; 0; 0; 0]);
        [vm_compute; split; [discriminate | reflexivity] | bytes_ok].
    - unfold is_uint8. lia.
    - bytes_ok.
    - reflexivity.
    - reflexivity. }
  destruct (finalize_clamps_length _ Hw) as (Hpl & _ & _ & Hlong).
  split; [exact Hpl|].
  apply (Hlong (replicate 302 0) 302 0x77 (replicate 300 0)).
  - size_ok.
  - reflexivity.
  - apply Forall_replicate. unfold is_uint8. lia.
  - unfold is_uint8. lia.
  - apply Forall_replicate. unfold is_uint8. lia.
  - reflexivity.
  - vm_compute. discriminate.
Defined.

Lemma readByte_bounded_by_received_size_witness :
  let mb := (readBytes 1
               (beginRead 5 (make [0x42; 1; 0xAA; 0xBB; 0xCC; 0; 0; 0] 8)).2).2 in
  (readByte mb).1 = Some (load (data mb) (tail_ mb)).
Proof.
  cbv zeta.
  set (mb := (readBytes 1
                (beginRead 5 (make [0x42; 1; 0xAA; 0xBB; 0xCC; 0; 0; 0] 8)).2).2).
  assert (Hrd : reading 5 mb).
  { exists (make [0x42; 1; 0xAA; 0xBB; 0xCC; 0; 0; 0] 8),
      (beginRead 5 (make [0x42; 1; 0xAA; 0xBB; 0xCC; 0; 0; 0] 8)).2, 1%nat.
    split_and!.
    - apply (mb_reachable_make [0x42; 1; 0xAA; 0xBB; 0xCC; 0; 0; 0]);
        [vm_compute; split; [discriminate | reflexivity] | bytes_ok].
    - size_ok.
    - reflexivity.
    - reflexivity. }
  destruct (readByte_bounded_by_received_size 5 mb Hrd)
    as (_ & _ & _ & _ & _ & Hpast & _).
  apply Hpast. vm_compute. split; [discriminate | reflexivity].
Defined.

Lemma beginRead_sizes_witness :
  let mb := make [0; 0; 0; 0; 0; 0; 0; 0] 8 in
  beginRead 1 mb = (false, mb)
  ∧ beginRead 9 mb = (false, mb)
  ∧ beginRead 4 mb
    = (true, {| data_ := data_ mb; capacity_ := capacity_ mb;
                head_ := 4; tail_ := 2 |}).
Proof.
  cbv zeta.
  assert (Hcap : 2 <= capacity_ (make [0; 0; 0; 0; 0; 0; 0; 0] 8))
    by (vm_compute; discriminate).
  split_and!.
  - apply (beginRead_sizes _ 1 Hcap). left. lia.
  - apply (beginRead_sizes _ 9 Hcap). right. cbn [capacity_ make]. lia.
  - apply (beginRead_sizes _ 4 Hcap). cbn [capacity_ make]. lia.
Defined.

Lemma readRemaining_declared_length_witness :
  let mb := (beginRead 4 (make [0x42; 5; 1; 2; 0; 0; 0; 0] 8)).2 in
  readRemaining mb = Z.max 0 (2 + payloadLength mb - tail_ mb)
  ∧ successful_reads 10 mb = Z.min (Z.of_nat 10) (4 - tail_ mb)
  ∧ successful_reads 10 mb < readRemaining mb.
Proof.
  cbv zeta.
  set (mb := (beginRead 4 (make [0x42; 5; 1; 2; 0; 0; 0; 0] 8)).2).
  assert (Hr0 : reachable (make [0x42; 5; 1; 2; 0; 0; 0; 0] 8)).
  { apply (mb_reachable_make [0x42; 5; 1; 2; 0; 0; 0; 0]);
      [vm_compute; split; [discriminate | reflexivity] | bytes_ok]. }
  assert (Hr : reachable mb).
  { exists [0x42; 5; 1; 2; 0; 0; 0; 0], 8, [BeginRead 4].
    split_and!; [size_ok | reflexivity | bytes_ok | | reflexivity].
    constructor; [cbn [call_ok]; size_ok | constructor]. }
  assert (Hrd : reading 4 mb).
  { exists (make [0x42; 5; 1; 2; 0; 0; 0; 0] 8), mb, 0%nat.
    split_and!; [exact Hr0 | size_ok | reflexivity | reflexivity]. }
  destruct (readRemaining_declared_length mb Hr) as (Hrem & _ & Hshort).
  split; [exact Hrem|].
  apply (Hshort 4 Hrd). vm_compute. reflexivity.
Defined.

End MessageBufferProofs.

(** ** RingBuffer *)

Lemma mod_add_apart N t a b :
  0 < N → 0 <= a < b → b - a < N → (t + a) mod N ≠ (t + b) mod N.
Proof.
  intros HN Hab Hd Heq.
  assert (((t + b) - (t + a)) mod N = 0) as H0.
  { rewrite Zminus_mod, Heq, Z.sub_diag. apply Z.mod_0_l. lia. }
  replace (t + b - (t + a)) with (b - a) in H0 by lia.
  rewrite Z.mod_small in H0; lia.
Qed.

Module RingBufferProofs.
Import RingBuffer.
Section WithElem.
Context {pf : Platform} {T : Type} `{Inhabited T}.
Variable N : Z.
Hypothesis N_pos : 1 <= N.
Hypothesis N_size : is_size N.

Local Abbreviation ring := (RingBuffer.t (T:=T)).

Lemma push_inv (v : T) (rb : ring) :
  ring_inv N rb →
  push N v rb
  = if count_ rb <? N
    then (true, {| buf_ := <[Z.to_nat (head_ rb) := v]> (buf_ rb);
                   head_ := (head_ rb + 1) mod N;
                   tail_ := tail_ rb;
                   count_ := count_ rb + 1 |})
    else (false, rb).
Proof using N_pos N_size.
  intros (Hl & Ht & Hc & Hh). unfold push.
  assert (0 <= head_ rb < N) by (rewrite Hh; apply Z.mod_pos_bound; lia).
  destruct (Z.eqb_spec (count_ rb) N), (Z.ltb_spec (count_ rb) N);
    try lia; [done|].
  rewrite !to_size_small by (unfold is_size in *; lia). done.
Qed.

Lemma pop_inv (rb : ring) :
  ring_inv N rb →
  pop N rb
  = if 0 <? count_ rb
    then (Some (buf_ rb !!! Z.to_nat (tail_ rb)),
          {| buf_ := buf_ rb;
             head_ := head_ rb;
             tail_ := (tail_ rb + 1) mod N;
             count_ := count_ rb - 1 |})
    else (None, rb).
Proof using N_pos N_size.
  intros (Hl & Ht & Hc & Hh). unfold pop.
  destruct (Z.eqb_spec (count_ rb) 0), (Z.ltb_spec 0 (count_ rb));
    try lia; [done|].
  rewrite !to_size_small by (unfold is_size in *; lia). done.
Qed.

Lemma make_inv : ring_inv N (make N : ring).
Proof using N_pos.
  unfold ring_inv, make, len. cbn [buf_ head_ tail_ count_].
  rewrite length_replicate. split_and!; try lia.
  by rewrite Z.mod_small by lia.
Qed.

Lemma push_keeps_inv (v : T) (rb : ring) :
  ring_inv N rb → ring_inv N (push N v rb).2.
Proof using N_pos N_size.
  intros Hi. rewrite (push_inv _ _ Hi). destruct Hi as (Hl & Ht & Hc & Hh).
  destruct (Z.ltb_spec (count_ rb) N); cbn [snd]; [|done].
  unfold ring_inv, len in *. cbn [buf_ head_ tail_ count_].
  rewrite length_insert. split_and!; try lia.
  rewrite Hh, Z.add_mod_idemp_l by lia. f_equal. lia.
Qed.

Lemma pop_keeps_inv (rb : ring) :
  ring_inv N rb → ring_inv N (pop N rb).2.
Proof using N_pos N_size.
  intros Hi. rewrite (pop_inv _ Hi). destruct Hi as (Hl & Ht & Hc & Hh).
  destruct (Z.ltb_spec 0 (count_ rb)); cbn [snd]; [|done].
  unfold ring_inv in *. cbn [buf_ head_ tail_ count_].
  split_and!; try lia.
  - apply Z.mod_pos_bound. lia.
  - apply Z.mod_pos_bound. lia.
  - rewrite Hh, Z.add_mod_idemp_l by lia. f_equal. lia.
Qed.

Lemma clear_inv (rb : ring) : ring_inv N rb → ring_inv N (clear rb).
Proof using N_pos.
  intros (Hl & _). unfold ring_inv, clear. cbn [buf_ head_ tail_ count_].
  split_and!; done || lia.
Qed.

Lemma len_contents (rb : ring) :
  ring_inv N rb → len (contents N rb) = count_ rb.
Proof.
  intros (_ & _ & Hc & _). unfold contents, len.
  rewrite length_fmap, length_seqZ. lia.
Qed.

(** A successful push appends to the live elements. *)
Lemma contents_push (v : T) (rb : ring) :
  ring_inv N rb → count_ rb < N →
  contents N (push N v rb).2 = contents N rb ++ [v].
Proof using N_pos N_size.
  intros Hi Hlt. rewrite (push_inv _ _ Hi). destruct Hi as (Hl & Ht & Hc & Hh).
  destruct (Z.ltb_spec (count_ rb) N); [|lia]. cbn [snd].
  unfold contents. cbn [buf_ head_ tail_ count_].
  rewrite seqZ_app by lia. rewrite fmap_app. f_equal.
  - apply list_fmap_ext. intros i k Hk.
    apply lookup_seqZ in Hk as [-> Hi].
    apply list_lookup_total_insert_ne.
    rewrite Hh. intros Heq. apply Z2Nat.inj in Heq;
      try (apply Z.mod_pos_bound; lia).
    symmetry in Heq. revert Heq. apply mod_add_apart; lia.
  - rewrite Z.add_0_l, seqZ_cons, seqZ_nil by lia. cbn [fmap list_fmap].
    rewrite <- Hh. f_equal. apply list_lookup_total_insert_eq.
    unfold len in Hl.
    assert (0 <= head_ rb < N) by (rewrite Hh; apply Z.mod_pos_bound; lia).
    lia.
Qed.

(** A successful pop returns the oldest live element and removes it. *)
Lemma contents_pop (rb : ring) :
  ring_inv N rb → 0 < count_ rb →
  contents N rb
  = (buf_ rb !!! Z.to_nat (tail_ rb)) :: contents N (pop N rb).2.
Proof using N_pos N_size.
  intros Hi Hlt. rewrite (pop_inv _ Hi). destruct Hi as (Hl & Ht & Hc & Hh).
  destruct (Z.ltb_spec 0 (count_ rb)); [|lia]. cbn [snd].
  unfold contents. cbn [buf_ head_ tail_ count_].
  rewrite (seqZ_cons 0 (count_ rb)) by lia. rewrite fmap_cons.
  rewrite Z.add_0_r, Z.mod_small by lia. f_equal.
  change (Z.succ 0) with (1 + 0). rewrite <- fmap_add_seqZ, <- list_fmap_compose.
  replace (Z.pred (count_ rb)) with (count_ rb - 1) by lia.
  apply list_fmap_ext. intros _ k _. cbn.
  rewrite Z.add_mod_idemp_l by lia. do 3 f_equal. lia.
Qed.

(** One call on the ring is the same call on the queue of its live
    elements. *)
Lemma step_refines (c : call) (rb : ring) :
  ring_inv N rb →
  (step N c rb).1 = (queue_step N c (contents N rb)).1
  ∧ contents N (step N c rb).2 = (queue_step N c (contents N rb)).2
  ∧ ring_inv N (step N c rb).2.
Proof using N_pos N_size.
  intros Hi. pose proof (len_contents _ Hi) as Hlen.
  destruct c as [v| |]; cbn [step queue_step].
  - pose proof (push_keeps_inv v _ Hi) as Hi'.
    pose proof (contents_push v _ Hi) as Hc.
    rewrite (push_inv _ _ Hi) in Hi', Hc |- *.
    unfold queue_push. rewrite Hlen.
    destruct (Z.ltb_spec (count_ rb) N); cbn [fst snd] in *; [|done].
    by rewrite Hc by done.
  - pose proof (pop_keeps_inv _ Hi) as Hi'.
    pose proof (contents_pop _ Hi) as Hc.
    rewrite (pop_inv _ Hi) in Hi', Hc |- *.
    destruct (Z.ltb_spec 0 (count_ rb)); cbn [fst snd] in *.
    + by rewrite Hc by done.
    + destruct (contents N rb) as [|x q]; [done|].
      unfold len in Hlen. cbn [length] in Hlen. lia.
  - cbn [fst snd]. split_and!; [done | | by apply clear_inv].
    unfold contents, clear. cbn [count_]. by rewrite seqZ_nil by lia.
Qed.

Lemma run_refines (cs : list call) (rb : ring) :
  ring_inv N rb →
  (run N cs rb).1 = (queue_run N cs (contents N rb)).1
  ∧ contents N (run N cs rb).2 = (queue_run N cs (contents N rb)).2
  ∧ ring_inv N (run N cs rb).2.
Proof using N_pos N_size.
  revert rb. induction cs as [|c cs IH]; intros rb Hi; [done|].
  cbn [run queue_run].
  destruct (step_refines c rb Hi) as (Hr & Hq & Hi').
  destruct (step N c rb) as [r rb1], (queue_step N c (contents N rb)) as [r' q1].
  cbn [fst snd] in *. subst r' q1.
  destruct (IH rb1 Hi') as (Hrs & Hqs & Hi'').
  destruct (run N cs rb1) as [rs rb2],
    (queue_run N cs (contents N rb1)) as [rs' q2].
  cbn [fst snd] in *. by subst rs' q2.
Qed.

Lemma contents_make : contents N (make N : ring) = [].
Proof. done. Qed.

Lemma reachable_inv (rb : ring) : reachable N rb → ring_inv N rb.
Proof using N_pos N_size.
  intros [cs ->]. by apply run_refines, make_inv.
Qed.

(** C9.  On every reachable RingBuffer<T, N>: [push] succeeds iff
    [count < N], then storing the value at [head], advancing [head] modulo
    [N] and incrementing [count], the value becoming the newest live
    element, and otherwise fails leaving the object as it is; [pop]
    succeeds iff [count > 0], then returning the oldest live element,
    advancing [tail] modulo [N] and decrementing [count], and otherwise
    fails leaving the object as it is.  Every sequence of calls gives the
    results a first-in-first-out queue bounded by [N] gives, so pops return
    the elements in the order of their pushes, across wrap-around too: for
    [N = 3], push A, B, C, pop (A), push D (succeeds), pop (B), pop (C),
    pop (D), and the buffer is empty. *)
Theorem ring_buffer_fifo :
  (∀ (rb : ring) v, reachable N rb →
     push N v rb
     = (if count_ rb <? N
        then (true, {| buf_ := <[Z.to_nat (head_ rb) := v]> (buf_ rb);
                       head_ := (head_ rb + 1) mod N;
                       tail_ := tail_ rb;
                       count_ := count_ rb + 1 |})
        else (false, rb))
     ∧ (count_ rb < N → contents N (push N v rb).2 = contents N rb ++ [v]))
  ∧ (∀ rb : ring, reachable N rb →
     pop N rb
     = (if 0 <? count_ rb
        then (Some (buf_ rb !!! Z.to_nat (tail_ rb)),
              {| buf_ := buf_ rb;
                 head_ := head_ rb;
                 tail_ := (tail_ rb + 1) mod N;
                 count_ := count_ rb - 1 |})
        else (None, rb))
     ∧ (0 < count_ rb →
        contents N rb
        = (buf_ rb !!! Z.to_nat (tail_ rb)) :: contents N (pop N rb).2))
  ∧ (∀ cs : list (call (T:=T)),
     (run N cs (make N)).1 = (queue_run N cs []).1
     ∧ contents N (run N cs (make N)).2 = (queue_run N cs []).2)
  ∧ (N = 3 → ∀ a b c d : T,
     (run N [Push a; Push b; Push c; Pop; Push d; Pop; Pop; Pop] (make N)).1
     = [Pushed true; Pushed true; Pushed true; Popped (Some a);
        Pushed true; Popped (Some b); Popped (Some c); Popped (Some d)]
     ∧ empty
         (run N [Push a; Push b; Push c; Pop; Push d; Pop; Pop; Pop] (make N)).2
       = true).
Proof using N_pos N_size.
  split_and!.
  - intros rb v Hr. pose proof (reachable_inv _ Hr) as Hi.
    split; [by apply push_inv | by apply contents_push].
  - intros rb Hr. pose proof (reachable_inv _ Hr) as Hi.
    split; [by apply pop_inv | by apply contents_pop].
  - intros cs. destruct (run_refines cs (make N) make_inv) as (Hr & Hq & _).
    by rewrite contents_make in Hr, Hq.
  - intros HN3 a b c d.
    set (cs := [Push a; Push b; Push c; Pop; Push d; Pop; Pop; Pop]).
    destruct (run_refines cs (make N) make_inv) as (Hr & Hq & Hi).
    rewrite contents_make in Hr, Hq.
    pose proof (len_contents _ Hi) as Hlen.
    rewrite Hq in Hlen. unfold empty. rewrite Hr, <- Hlen.
    subst cs. rewrite HN3. done.
Qed.

End WithElem.

(** *** A concrete instance: RingBuffer<int, 3> (32-bit [size_t]) *)

Lemma ring_buffer_fifo_witness :
  (run (pf:=ilp32) (T:=Z) 3
     [Push 1; Push 2; Push 3; Pop; Push 4; Pop; Pop; Pop] (make 3)).1
  = [Pushed true; Pushed true; Pushed true; Popped (Some 1);
     Pushed true; Popped (Some 2); Popped (Some 3); Popped (Some 4)]
  ∧ empty
      (run (pf:=ilp32) (T:=Z) 3
         [Push 1; Push 2; Push 3; Pop; Push 4; Pop; Pop; Pop] (make 3)).2
    = true.
Proof.
  assert (H1 : 1 <= 3) by lia.
  assert (H3 : is_size (pf:=ilp32) 3)
    by (unfold is_size, SIZE_MOD; cbn [size_bits ilp32]; lia).
  destruct (ring_buffer_fifo (pf:=ilp32) (T:=Z) 3 H1 H3) as (_ & _ & _ & Hex).
  exact (Hex eq_refl 1 2 3 4).
Defined.

End RingBufferProofs.

(** * Further properties of the three classes *)

(** Bitwise goals whose remaining cases test a bit below the shift. *)
Ltac bitblast_low :=
  Z.bitblast; subst;
  repeat match goal with
         | |- context [Z.testbit ?b (?i - ?k)] =>
             rewrite (Z.testbit_neg_r b (i - k)) by lia
         end;
  rewrite ?andb_false_r; reflexivity.

(** Little- and big-endian combination of bytes, as sums. *)
Lemma combine16 b0 b1 :
  is_uint8 b0 → is_uint8 b1 →
  to_uint16 (Z.lor (to_uint16 b0) (Z.shiftl (to_uint16 b1) 8))
  = b0 + 256 * b1.
Proof.
  unfold is_uint8, to_uint16. intros H0 H1.
  rewrite (Z.mod_small b0), (Z.mod_small b1) by lia.
  rewrite Z.or_to_plus.
  - rewrite Z.shiftl_mul_pow2 by lia. rewrite Z.mod_small; lia.
  - rewrite <- (Z.mod_small b0 (2 ^ 8)) by lia. bitblast_low.
Qed.

Lemma combine32 b0 b1 b2 b3 :
  is_uint8 b0 → is_uint8 b1 → is_uint8 b2 → is_uint8 b3 →
  Z.lor (Z.lor (Z.lor
     (to_uint32 b0)
     (to_uint32 (Z.shiftl (to_uint32 b1) 8)))
     (to_uint32 (Z.shiftl (to_uint32 b2) 16)))
     (to_uint32 (Z.shiftl (to_uint32 b3) 24))
  = b0 + 2 ^ 8 * b1 + 2 ^ 16 * b2 + 2 ^ 24 * b3.
Proof.
  unfold is_uint8, to_uint32. intros H0 H1 H2 H3.
  rewrite (Z.mod_small b0), (Z.mod_small b1), (Z.mod_small b2),
    (Z.mod_small b3) by lia.
  rewrite !(Z.mod_small (Z.shiftl _ _)) by (rewrite Z.shiftl_mul_pow2; lia).
  assert (L1 : Z.land b0 (Z.shiftl b1 8) = 0).
  { rewrite <- (Z.mod_small b0 (2 ^ 8)) by lia. bitblast_low. }
  assert (L2 : Z.land (Z.lor b0 (Z.shiftl b1 8)) (Z.shiftl b2 16) = 0).
  { rewrite <- (Z.mod_small b0 (2 ^ 8)), <- (Z.mod_small b1 (2 ^ 8)) by lia.
    bitblast_low. }
  assert (L3 : Z.land (Z.lor (Z.lor b0 (Z.shiftl b1 8)) (Z.shiftl b2 16))
                 (Z.shiftl b3 24) = 0).
  { rewrite <- (Z.mod_small b0 (2 ^ 8)), <- (Z.mod_small b1 (2 ^ 8)),
      <- (Z.mod_small b2 (2 ^ 8)) by lia.
    bitblast_low. }
  rewrite (Z.or_to_plus _ _ L3), (Z.or_to_plus _ _ L2), (Z.or_to_plus _ _ L1).
  rewrite !Z.shiftl_mul_pow2 by lia. lia.
Qed.

Lemma combine16_be b0 b1 :
  is_uint8 b0 → is_uint8 b1 →
  to_uint16 (Z.lor (Z.shiftl (to_uint16 b0) 8) (to_uint16 b1))
  = 256 * b0 + b1.
Proof. intros H0 H1. rewrite Z.lor_comm, combine16 by done. lia. Qed.

Lemma combine32_be b0 b1 b2 b3 :
  is_uint8 b0 → is_uint8 b1 → is_uint8 b2 → is_uint8 b3 →
  Z.lor (Z.lor (Z.lor
     (to_uint32 (Z.shiftl (to_uint32 b0) 24))
     (to_uint32 (Z.shiftl (to_uint32 b1) 16)))
     (to_uint32 (Z.shiftl (to_uint32 b2) 8)))
     (to_uint32 b3)
  = 2 ^ 24 * b0 + 2 ^ 16 * b1 + 2 ^ 8 * b2 + b3.
Proof.
  intros H0 H1 H2 H3.
  transitivity (b3 + 2 ^ 8 * b2 + 2 ^ 16 * b1 + 2 ^ 24 * b0); [|lia].
  rewrite <- (combine32 b3 b2 b1 b0) by done.
  generalize (to_uint32 b3) as x3.
  generalize (to_uint32 (to_uint32 b2 ≪ 8)) as x2.
  generalize (to_uint32 (to_uint32 b1 ≪ 16)) as x1.
  generalize (to_uint32 (to_uint32 b0 ≪ 24)) as x0.
  intros. Z.bitblast.
Qed.

Lemma store1_splice a p v :
  0 <= p < len a → store a p v = splice a p [v].
Proof.
  intros Hp. rewrite <- (splice_nil a p) at 1.
  pose proof (store_splice_snoc a p [] v) as E.
  change (len (@nil Z)) with 0 in E. rewrite Z.add_0_r in E.
  by rewrite E by lia.
Qed.

Lemma take_splice a p bs :
  0 <= p → p + len bs <= len a →
  take (Z.to_nat p) (splice a p bs) = take (Z.to_nat p) a.
Proof.
  unfold splice, len. intros Hp Hl.
  rewrite take_app_length'; [done | rewrite length_take; lia].
Qed.

Lemma drop_splice a p bs :
  0 <= p → p + len bs <= len a →
  drop (Z.to_nat (p + len bs)) (splice a p bs)
  = drop (Z.to_nat (p + len bs)) a.
Proof.
  unfold splice, len. intros Hp Hl.
  rewrite app_assoc.
  rewrite drop_app_length'; [done|].
  rewrite length_app, length_take. lia.
Qed.

(** ** ByteBuffer: the 8-bit accessors, the readers, frames and replay *)

Module ByteBufferExtras.
Import ByteBuffer ByteBufferProofs.
Section WithPlatform.
Context {pf : Platform}.

Lemma writeUInt8_bounded bb v :
  bounded bb →
  writeUInt8 v bb
  = if head_ bb <? capacity_ bb then (true, after_write bb [v]) else (false, bb).
Proof.
  intros Hb. pose proof Hb as (Hc & Hl & Hh & Ht).
  unfold writeUInt8. rewrite (writeRemaining_bounded _ Hb).
  destruct (Z.ltb_spec (capacity_ bb - head_ bb) 1),
    (Z.ltb_spec (head_ bb) (capacity_ bb)); try lia; [done|].
  rewrite to_size_small by (unfold is_size in *; lia).
  by rewrite store1_splice by lia.
Qed.

Lemma readUInt8_bounded bb :
  bounded bb →
  readUInt8 bb
  = if tail_ bb <? head_ bb
    then (Some (load (data_ bb) (tail_ bb)), set_tail bb (tail_ bb + 1))
    else (None, bb).
Proof.
  intros Hb. pose proof Hb as (Hc & Hl & Hh & Ht).
  unfold readUInt8. rewrite (bb_readRemaining_bounded _ Hb).
  destruct (Z.ltb_spec (Z.max 0 (head_ bb - tail_ bb)) 1),
    (Z.ltb_spec (tail_ bb) (head_ bb)); try lia; [done|].
  by rewrite to_size_small by (unfold is_size in *; lia).
Qed.

(** X1.  On a reachable ByteBuffer [writeUInt8] with no room returns
    [false] and leaves the object as it is; with room it returns [true],
    the byte is in the array at the old write cursor, every other byte is
    unchanged and the write cursor is advanced by one. *)
Theorem writeUInt8_all_or_nothing bb v :
  reachable bb →
  (writeRemaining bb < 1 → writeUInt8 v bb = (false, bb))
  ∧ (1 <= writeRemaining bb →
     writeUInt8 v bb = (true, after_write bb [v])
     ∧ load (data_ (after_write bb [v])) (writePosition bb) = v
     ∧ writePosition (after_write bb [v]) = writePosition bb + 1).
Proof.
  intros Hr. pose proof (bb_reachable_bounded _ Hr) as Hb.
  pose proof Hb as (Hc & Hl & Hh & Ht).
  rewrite (writeUInt8_bounded _ _ Hb), (writeRemaining_bounded _ Hb).
  split; intros Hw.
  - by destruct (Z.ltb_spec (head_ bb) (capacity_ bb)); [lia|].
  - destruct (Z.ltb_spec (head_ bb) (capacity_ bb)); [|lia].
    split_and!; [done | | done].
    unfold after_write, writePosition. cbn [data_].
    rewrite load_splice_at by (unfold len in *; cbn [length]; lia).
    by rewrite Z.sub_diag.
Qed.

(** Splits a reader of width [w] on a bounded object on its bound check. *)
Ltac reader_cases Hb :=
  let Hc := fresh "Hc" in let Hl := fresh "Hl" in
  let Hh := fresh "Hh" in let Ht := fresh "Ht" in
  pose proof Hb as (Hc & Hl & Hh & Ht);
  unfold read_all_or_nothing, readUInt8, readUInt16LE, readUInt16BE,
    readUInt32LE, readUInt32BE, readPosition;
  rewrite (bb_readRemaining_bounded _ Hb);
  match goal with
  | |- context [?a <? ?b] => destruct (Z.ltb_spec a b)
  end;
  cbv zeta; cbn [fst snd];
  (split; intros Hw; [done || lia | try lia]);
  split; [by eexists|];
  by rewrite to_size_small by (unfold is_size in *; lia).

(** X2.  On a reachable ByteBuffer each reader ([readUInt8],
    [readUInt16LE/BE], [readUInt32LE/BE]) with fewer than its width of
    bytes to read fails and leaves the object as it is; otherwise it
    returns a value, advances the read cursor by exactly its width and
    leaves the array, the capacity and the write cursor as they are. *)
Theorem readers_all_or_nothing bb :
  reachable bb →
  read_all_or_nothing readUInt8 1 bb
  ∧ read_all_or_nothing readUInt16LE 2 bb
  ∧ read_all_or_nothing readUInt16BE 2 bb
  ∧ read_all_or_nothing readUInt32LE 4 bb
  ∧ read_all_or_nothing readUInt32BE 4 bb.
Proof.
  intros Hr. pose proof (bb_reachable_bounded _ Hr) as Hb.
  split_and!; reader_cases Hb.
Qed.

(** X7.  In every reachable state [writeRemaining()] is
    [capacity() - writePosition()], and [readRemaining()] is
    [writePosition() - readPosition()] when the read cursor is not above
    the write cursor and 0 when it is. *)
Theorem remaining_queries bb :
  reachable bb →
  writeRemaining bb = ByteBuffer.capacity bb - writePosition bb
  ∧ (readPosition bb <= writePosition bb →
     readRemaining bb = writePosition bb - readPosition bb)
  ∧ (writePosition bb < readPosition bb → readRemaining bb = 0).
Proof.
  intros Hr. pose proof (bb_reachable_bounded _ Hr) as Hb.
  rewrite (writeRemaining_bounded _ Hb), (bb_readRemaining_bounded _ Hb).
  unfold readPosition, writePosition, ByteBuffer.capacity.
  split_and!; [done | lia | lia].
Qed.

(** X8.  Right after [resetWrite()] nothing can be read: each of the five
    readers fails and leaves the object as it is, whatever was written
    before. *)
Theorem no_read_after_resetWrite bb :
  reachable bb →
  readUInt8 (resetWrite bb) = (None, resetWrite bb)
  ∧ readUInt16LE (resetWrite bb) = (None, resetWrite bb)
  ∧ readUInt16BE (resetWrite bb) = (None, resetWrite bb)
  ∧ readUInt32LE (resetWrite bb) = (None, resetWrite bb)
  ∧ readUInt32BE (resetWrite bb) = (None, resetWrite bb).
Proof.
  intros Hr. pose proof (bb_reachable_bounded _ Hr) as Hb.
  pose proof (bb_step_bounded ResetWrite _ Hb) as Hb'. cbn [step] in Hb'.
  pose proof Hb as (Hc & Hl & Hh & Ht).
  assert (Hrem : Z.max 0 (head_ (resetWrite bb) - tail_ (resetWrite bb)) = 0).
  { unfold resetWrite. cbn [set_head head_ tail_]. lia. }
  unfold readUInt8, readUInt16LE, readUInt16BE, readUInt32LE, readUInt32BE.
  by rewrite (bb_readRemaining_bounded _ Hb'), Hrem.
Qed.

(** X3.  On a reachable ByteBuffer over an array of bytes, a successful
    16- or 32-bit read returns the bytes at the read cursor combined in the
    order of the variant: the byte at the lowest index is the least
    significant one for LE and the most significant one for BE. *)
Theorem readers_decode bb :
  reachable bb → Forall is_uint8 (data_ bb) →
  let d := data_ bb in
  let p := readPosition bb in
  (2 <= readRemaining bb →
     (readUInt16LE bb).1 = Some (load d p + 256 * load d (p + 1))
     ∧ (readUInt16BE bb).1 = Some (256 * load d p + load d (p + 1)))
  ∧ (4 <= readRemaining bb →
     (readUInt32LE bb).1
     = Some (load d p + 2 ^ 8 * load d (p + 1)
             + 2 ^ 16 * load d (p + 2) + 2 ^ 24 * load d (p + 3))
     ∧ (readUInt32BE bb).1
       = Some (2 ^ 24 * load d p + 2 ^ 16 * load d (p + 1)
               + 2 ^ 8 * load d (p + 2) + load d (p + 3))).
Proof.
  intros Hr Hd. pose proof (bb_reachable_bounded _ Hr) as Hb.
  pose proof Hb as (Hc & Hl & Hh & Ht).
  pose proof (MessageBufferProofs.load_is_uint8 (data_ bb)) as Hbyte.
  cbv zeta. unfold readPosition, readUInt16LE, readUInt16BE, readUInt32LE,
    readUInt32BE.
  rewrite (bb_readRemaining_bounded _ Hb).
  split; intros Hw.
  - destruct (Z.ltb_spec (Z.max 0 (head_ bb - tail_ bb)) 2); [lia|].
    cbv zeta. cbn [fst].
    rewrite !to_size_small by (unfold is_size in *; lia).
    by rewrite combine16, combine16_be by auto.
  - destruct (Z.ltb_spec (Z.max 0 (head_ bb - tail_ bb)) 4); [lia|].
    cbv zeta. cbn [fst].
    rewrite !to_size_small by (unfold is_size in *; lia).
    by rewrite combine32, combine32_be by auto.
Qed.

(** *** What a call may change *)

Lemma step_frame c bb :
  bounded bb →
  (data_ (step c bb) = data_ bb ∧ capacity_ (step c bb) = capacity_ bb)
  ∨ (∃ bs, head_ bb + len bs <= capacity_ bb ∧ head_ bb < head_ bb + len bs
           ∧ step c bb = after_write bb bs).
Proof.
  intros Hb. pose proof Hb as (Hc & Hl & Hh & Ht).
  destruct c as [| | |v| | |v|v| | |v|v]; cbn [step];
    try (left;
         unfold resetWrite, resetRead, readUInt8, readUInt16LE, readUInt16BE,
           readUInt32LE, readUInt32BE;
         try match goal with
             | |- context [?a <? ?b] => destruct (Z.ltb_spec a b)
             end; done).
  - rewrite (writeUInt8_bounded _ _ Hb).
    destruct (Z.ltb_spec (head_ bb) (capacity_ bb)); [|by left].
    right. exists [v]. change (len [v]) with 1. split_and!; [lia | lia | done].
  - destruct (Z.lt_ge_cases (capacity_ bb - head_ bb) 2).
    + left. unfold writeUInt16LE. rewrite (writeRemaining_bounded _ Hb).
      by destruct (Z.ltb_spec (capacity_ bb - head_ bb) 2); [|lia].
    + right. exists [byte_of v 0; byte_of v 1].
      rewrite writeUInt16LE_ok by done.
      change (len [_; _]) with 2. split_and!; [lia | lia | done].
  - destruct (Z.lt_ge_cases (capacity_ bb - head_ bb) 2).
    + left. unfold writeUInt16BE. rewrite (writeRemaining_bounded _ Hb).
      by destruct (Z.ltb_spec (capacity_ bb - head_ bb) 2); [|lia].
    + right. exists [byte_of v 1; byte_of v 0].
      rewrite writeUInt16BE_ok by done.
      change (len [_; _]) with 2. split_and!; [lia | lia | done].
  - destruct (Z.lt_ge_cases (capacity_ bb - head_ bb) 4).
    + left. unfold writeUInt32LE. rewrite (writeRemaining_bounded _ Hb).
      by destruct (Z.ltb_spec (capacity_ bb - head_ bb) 4); [|lia].
    + right. exists [byte_of v 0; byte_of v 1; byte_of v 2; byte_of v 3].
      rewrite writeUInt32LE_ok by done.
      change (len [_; _; _; _]) with 4. split_and!; [lia | lia | done].
  - destruct (Z.lt_ge_cases (capacity_ bb - head_ bb) 4).
    + left. unfold writeUInt32BE. rewrite (writeRemaining_bounded _ Hb).
      by destruct (Z.ltb_spec (capacity_ bb - head_ bb) 4); [|lia].
    + right. exists [byte_of v 3; byte_of v 2; byte_of v 1; byte_of v 0].
      rewrite writeUInt32BE_ok by done.
      change (len [_; _; _; _]) with 4. split_and!; [lia | lia | done].
Qed.

(** X4.  A call on a reachable ByteBuffer never changes the capacity or
    the length of the array, never changes a byte below the write cursor it
    found, and never changes a byte at or above the write cursor it leaves:
    only a successful write changes bytes, and only those between the old
    and the new write cursor. *)
Theorem calls_frame bb c :
  reachable bb →
  ByteBuffer.capacity (step c bb) = ByteBuffer.capacity bb
  ∧ len (data_ (step c bb)) = len (data_ bb)
  ∧ take (Z.to_nat (writePosition bb)) (data_ (step c bb))
    = take (Z.to_nat (writePosition bb)) (data_ bb)
  ∧ drop (Z.to_nat (writePosition (step c bb))) (data_ (step c bb))
    = drop (Z.to_nat (writePosition (step c bb))) (data_ bb).
Proof.
  intros Hr. pose proof (bb_reachable_bounded _ Hr) as Hb.
  pose proof Hb as (Hc & Hl & Hh & Ht).
  unfold ByteBuffer.capacity, writePosition.
  destruct (step_frame c bb Hb) as [[Hd Hcap] | (bs & Hfit & _ & ->)].
  - by rewrite Hd, Hcap.
  - unfold after_write. cbn [data_ capacity_ head_].
    rewrite len_splice, take_splice, drop_splice by lia. done.
Qed.

(** *** Runs of [writeUInt8] and [readUInt8] *)

Lemma after_write_nil bb : after_write bb [] = bb.
Proof.
  unfold after_write. rewrite splice_nil. change (len (@nil Z)) with 0.
  rewrite Z.add_0_r. by destruct bb.
Qed.

Lemma after_write_cons bb v bs :
  0 <= head_ bb < len (data_ bb) →
  after_write (after_write bb [v]) bs = after_write bb (v :: bs).
Proof.
  intros Hh. unfold after_write. cbn [data_ capacity_ head_ tail_].
  change (len [v]) with 1.
  rewrite <- store1_splice by done.
  rewrite MessageBufferProofs.splice_cons by done.
  f_equal. unfold len. cbn [length]. lia.
Qed.

Lemma writeUInt8s_bounded vs bb :
  bounded bb →
  writeUInt8s vs bb
  = (replicate (length vs `min` Z.to_nat (capacity_ bb - head_ bb)) true
       ++ replicate (length vs - Z.to_nat (capacity_ bb - head_ bb)) false,
     after_write bb (take (Z.to_nat (capacity_ bb - head_ bb)) vs)).
Proof.
  revert bb. induction vs as [|v vs IH]; intros bb Hb.
  - cbn [writeUInt8s length Nat.min Nat.sub replicate app].
    by rewrite take_nil, after_write_nil.
  - pose proof Hb as (Hc & Hl & Hh & Ht).
    cbn [writeUInt8s]. rewrite (writeUInt8_bounded _ _ Hb).
    destruct (Z.ltb_spec (head_ bb) (capacity_ bb)).
    + assert (Hb1 : bounded (after_write bb [v]))
        by (apply after_write_bounded; [done | change (len [v]) with 1; lia]).
      rewrite (IH _ Hb1). cbn [after_write capacity_ head_].
      change (len [v]) with 1.
      rewrite after_write_cons by lia.
      replace (Z.to_nat (capacity_ bb - head_ bb))
        with (S (Z.to_nat (capacity_ bb - (head_ bb + 1)))) by lia.
      by cbn [length Nat.min Nat.sub replicate app take].
    + rewrite (IH _ Hb).
      replace (Z.to_nat (capacity_ bb - head_ bb)) with 0%nat by lia.
      rewrite !Nat.min_0_r, !Nat.sub_0_r, !take_0. done.
Qed.

(** X5.  [writeUInt8] called for the bytes of [vs] in turn on a
    reachable ByteBuffer succeeds for the first [writeRemaining()] bytes
    (for all of them if they are fewer) and fails for the rest; the
    accepted bytes are in the array in order from the old write cursor on.
    When [vs] has at least [writeRemaining()] bytes the buffer is full
    afterwards: [writePosition() == capacity()], [writeRemaining() == 0],
    and a further [writeUInt8] fails and changes nothing. *)
Theorem writeUInt8_fill_and_overflow bb vs :
  reachable bb →
  let room := Z.to_nat (writeRemaining bb) in
  (writeUInt8s vs bb).1
  = replicate (length vs `min` room) true ++ replicate (length vs - room) false
  ∧ (writeUInt8s vs bb).2 = after_write bb (take room vs)
  ∧ (writeRemaining bb <= len vs →
     writePosition (writeUInt8s vs bb).2 = ByteBuffer.capacity bb
     ∧ writeRemaining (writeUInt8s vs bb).2 = 0
     ∧ ∀ v, writeUInt8 v (writeUInt8s vs bb).2 = (false, (writeUInt8s vs bb).2)).
Proof.
  intros Hr. pose proof (bb_reachable_bounded _ Hr) as Hb.
  pose proof Hb as (Hc & Hl & Hh & Ht).
  cbv zeta. rewrite (writeUInt8s_bounded _ _ Hb), (writeRemaining_bounded _ Hb).
  cbn [fst snd]. split_and!; [done | done |].
  intros Hfull.
  set (room := Z.to_nat (capacity_ bb - head_ bb)).
  assert (Hlen : len (take room vs) = capacity_ bb - head_ bb).
  { unfold len in *. rewrite length_take. lia. }
  assert (Hb' : bounded (after_write bb (take room vs)))
    by (apply after_write_bounded; [done | lia]).
  assert (Hpos : head_ (after_write bb (take room vs)) = capacity_ bb)
    by (cbn [after_write head_]; lia).
  split_and!.
  - done.
  - rewrite (writeRemaining_bounded _ Hb'), Hpos.
    cbn [after_write capacity_]. lia.
  - intros v. rewrite (writeUInt8_bounded _ _ Hb'), Hpos.
    cbn [after_write capacity_].
    by destruct (Z.ltb_spec (capacity_ bb) (capacity_ bb)); [lia|].
Qed.

Lemma readUInt8s_bounded n bb :
  bounded bb → tail_ bb <= head_ bb →
  readUInt8s n bb
  = (MessageBuffer.reads_below (data_ bb) (tail_ bb) (head_ bb) n,
     set_tail bb (Z.min (tail_ bb + Z.of_nat n) (head_ bb))).
Proof.
  revert bb. induction n as [|n IH]; intros bb Hb Hth.
  - cbn [readUInt8s]. rewrite Z.add_0_r, Z.min_l by done. by destruct bb.
  - pose proof (bb_step_bounded ReadUInt8 bb Hb) as Hb1. cbn [step] in Hb1.
    cbn [readUInt8s]. rewrite (readUInt8_bounded _ Hb) in Hb1 |- *.
    rewrite MessageBufferProofs.reads_below_S.
    destruct (Z.ltb_spec (tail_ bb) (head_ bb)); cbn [snd] in Hb1.
    + rewrite (IH _ Hb1) by (cbn [set_tail head_ tail_]; lia).
      unfold set_tail. cbn [data_ capacity_ head_ tail_].
      do 2 f_equal. lia.
    + rewrite (IH _ Hb Hth).
      rewrite !MessageBufferProofs.reads_below_ge by lia.
      do 2 f_equal. lia.
Qed.

(** X6.  After [resetRead()] on a reachable ByteBuffer, [n] calls of
    [readUInt8] return the bytes of the array from index 0 on, one per
    call, while the cursor is below [writePosition()], and fail from there
    on; a further [resetRead()] gives back the object the first one gave,
    so what was written can be read again any number of times. *)
Theorem resetRead_replays bb n :
  reachable bb →
  (readUInt8s n (resetRead bb)).1
  = MessageBuffer.reads_below (data_ bb) 0 (writePosition bb) n
  ∧ resetRead (readUInt8s n (resetRead bb)).2 = resetRead bb.
Proof.
  intros Hr. pose proof (bb_reachable_bounded _ Hr) as Hb.
  pose proof (bb_step_bounded ResetRead _ Hb) as Hb'. cbn [step] in Hb'.
  pose proof Hb as (Hc & Hl & Hh & Ht).
  rewrite (readUInt8s_bounded _ _ Hb')
    by (unfold resetRead; cbn [set_tail head_ tail_]; lia).
  by split.
Qed.

Lemma reads_below_payload d pre vs post n :
  d = pre ++ vs ++ post → n = length vs →
  MessageBuffer.reads_below d (len pre) (len pre + len vs) n = Some <$> vs.
Proof.
  revert pre n. induction vs as [|v vs IH]; intros pre n -> ->; [done|].
  cbn [length]. rewrite MessageBufferProofs.reads_below_S.
  assert (len (v :: vs) = 1 + len vs) as -> by (unfold len; cbn [length]; lia).
  assert (0 <= len vs) by (unfold len; lia).
  destruct (Z.ltb_spec (len pre) (len pre + (1 + len vs))); [|lia].
  rewrite fmap_cons. f_equal.
  - f_equal. unfold load, len. rewrite Nat2Z.id.
    by rewrite lookup_app_r, Nat.sub_diag by lia.
  - specialize (IH (pre ++ [v]) (length vs)).
    assert (len (pre ++ [v]) = len pre + 1) as Hl
      by (unfold len; rewrite length_app; cbn [length]; lia).
    rewrite Hl in IH. rewrite <- IH; [|by rewrite <- app_assoc|done].
    f_equal. lia.
Qed.

(** X9.  Bytes written with [writeUInt8] into a new ByteBuffer that has
    room for them are read back by [readUInt8] in the order written, and
    the read after the last of them fails. *)
Theorem bytes_round_trip buffer capacity vs :
  is_size capacity → len buffer = capacity → len vs <= capacity →
  let bb := (writeUInt8s vs (make buffer capacity)).2 in
  (readUInt8s (length vs) bb).1 = Some <$> vs
  ∧ (readUInt8 (readUInt8s (length vs) bb).2).1 = None.
Proof.
  intros Hc Hl Hfit. pose proof (bb_make_bounded buffer capacity Hc Hl) as Hb0.
  assert (0 <= len vs) by (unfold len; lia).
  cbv zeta. rewrite (writeUInt8s_bounded _ _ Hb0). cbn [snd make capacity_ head_].
  rewrite Z.sub_0_r, take_ge by (unfold len in *; lia).
  assert (Hb : bounded (after_write (make buffer capacity) vs))
    by (apply after_write_bounded; [done | cbn; lia]).
  rewrite (readUInt8s_bounded _ _ Hb)
    by (cbn [after_write make head_ tail_]; lia).
  cbn [fst snd after_write make data_ head_ tail_].
  split.
  - unfold splice. rewrite take_0. cbn [app].
    exact (reads_below_payload _ [] vs _ (length vs) eq_refl eq_refl).
  - assert (Z.min (0 + Z.of_nat (length vs)) (0 + len vs) = len vs) as ->
      by (unfold len; lia).
    assert (Hb2 : bounded (set_tail (after_write (make buffer capacity) vs)
                             (len vs))).
    { destruct Hb as (? & ? & ? & ?). unfold bounded, set_tail.
      cbn [after_write make data_ capacity_ head_ tail_] in *.
      split_and!; try done; lia. }
    rewrite (readUInt8_bounded _ Hb2).
    cbn [set_tail after_write make head_ tail_].
    by destruct (Z.ltb_spec (len vs) (0 + len vs)); [lia|].
Qed.

(** X22.  [resetWrite()] leaves the read cursor where it was, also
    above the new write cursor: after [resetWrite()] at read position [r]
    and then [writeUInt8] of the bytes [vs] (which fit), [readRemaining()]
    is [len vs - r] (0 if that is negative), and the next [readUInt8], if
    any byte can be read, returns the byte written at index [r], not the
    first one. *)
Theorem stale_read_cursor_after_resetWrite bb vs :
  reachable bb → len vs <= ByteBuffer.capacity bb →
  let bb' := (writeUInt8s vs (resetWrite bb)).2 in
  writePosition bb' = len vs
  ∧ readPosition bb' = readPosition bb
  ∧ readRemaining bb' = Z.max 0 (len vs - readPosition bb)
  ∧ (readPosition bb < len vs →
     (readUInt8 bb').1 = Some (default 0 (vs !! Z.to_nat (readPosition bb)))).
Proof.
  intros Hr Hfit. pose proof (bb_reachable_bounded _ Hr) as Hb.
  pose proof (bb_step_bounded ResetWrite _ Hb) as Hb0. cbn [step] in Hb0.
  pose proof Hb as (Hc & Hl & Hh & Ht).
  assert (0 <= len vs) by (unfold len; lia).
  unfold ByteBuffer.capacity, readPosition, writePosition in *. cbv zeta.
  set (bb0 := resetWrite bb) in *.
  assert (Hh0 : head_ bb0 = 0) by done.
  assert (Ht0 : tail_ bb0 = tail_ bb) by done.
  assert (Hc0 : capacity_ bb0 = capacity_ bb) by done.
  assert (Hd0 : len (data_ bb0) = capacity_ bb) by done.
  rewrite (writeUInt8s_bounded _ _ Hb0). cbn [snd].
  rewrite Hh0, Hc0, Z.sub_0_r, take_ge by (unfold len in *; lia).
  assert (Hb' : bounded (after_write bb0 vs))
    by (apply after_write_bounded; [done | lia]).
  rewrite (bb_readRemaining_bounded _ Hb'), (readUInt8_bounded _ Hb').
  cbn [after_write data_ head_ tail_]. rewrite Hh0, Ht0.
  split_and!; try done; try lia.
  intros Hlt. destruct (Z.ltb_spec (tail_ bb) (0 + len vs)); [|lia].
  cbn [fst]. f_equal.
  rewrite load_splice_at by lia. by rewrite Z.sub_0_r.
Qed.

End WithPlatform.

(** *** Concrete instances (32-bit [size_t]) *)

#[local] Existing Instance ilp32.

(** Reachability of [run cs (make buffer n)] for a literal array. *)
Ltac sample_reachable buffer cs :=
  apply (bb_reachable_run buffer cs);
  vm_compute; split; [discriminate | reflexivity].

Lemma writeUInt8_all_or_nothing_witness :
  let bb := run [WriteUInt8 1] (make [0; 0] 2) in
  writeUInt8 0xAA bb = (true, after_write bb [0xAA])
  ∧ load (data_ (after_write bb [0xAA])) (writePosition bb) = 0xAA
  ∧ writePosition (after_write bb [0xAA]) = writePosition bb + 1.
Proof.
  cbv zeta.
  assert (Hr : reachable (run [WriteUInt8 1] (make [0; 0] 2)))
    by sample_reachable [0; 0] [WriteUInt8 1].
  destruct (writeUInt8_all_or_nothing _ 0xAA Hr) as [_ Hok].
  apply Hok. vm_compute. discriminate.
Defined.

Lemma readers_all_or_nothing_witness :
  let bb := run [WriteUInt8 1; WriteUInt8 2] (make [0; 0; 0; 0; 0; 0; 0; 0] 8) in
  read_all_or_nothing readUInt8 1 bb
  ∧ read_all_or_nothing readUInt16LE 2 bb
  ∧ read_all_or_nothing readUInt16BE 2 bb
  ∧ read_all_or_nothing readUInt32LE 4 bb
  ∧ read_all_or_nothing readUInt32BE 4 bb.
Proof.
  apply readers_all_or_nothing.
  sample_reachable [0; 0; 0; 0; 0; 0; 0; 0] [WriteUInt8 1; WriteUInt8 2].
Defined.

Lemma readers_decode_witness :
  let bb := run [WriteUInt16LE 0x1234; WriteUInt16BE 0xABCD]
              (make [0; 0; 0; 0; 0; 0; 0; 0] 8) in
  (readUInt16LE bb).1
  = Some (load (data_ bb) (readPosition bb)
          + 256 * load (data_ bb) (readPosition bb + 1))
  ∧ (readUInt16BE bb).1
    = Some (256 * load (data_ bb) (readPosition bb)
            + load (data_ bb) (readPosition bb + 1)).
Proof.
  cbv zeta.
  set (bb := run [WriteUInt16LE 0x1234; WriteUInt16BE 0xABCD]
               (make [0; 0; 0; 0; 0; 0; 0; 0] 8)).
  assert (Hr : reachable bb)
    by sample_reachable [0; 0; 0; 0; 0; 0; 0; 0]
         [WriteUInt16LE 0x1234; WriteUInt16BE 0xABCD].
  assert (Hd : Forall is_uint8 (data_ bb)).
  { change (Forall is_uint8 [0x34; 0x12; 0xAB; 0xCD; 0; 0; 0; 0]).
    repeat (constructor; [unfold is_uint8; lia|]). constructor. }
  destruct (readers_decode bb Hr Hd) as [H16 _].
  apply H16. vm_compute. discriminate.
Defined.

Lemma calls_frame_witness :
  let bb := run [WriteUInt8 1; WriteUInt8 2] (make [0; 0; 0; 0; 0; 0; 0; 0] 8) in
  let c := WriteUInt32LE 7 in
  ByteBuffer.capacity (step c bb) = ByteBuffer.capacity bb
  ∧ len (data_ (step c bb)) = len (data_ bb)
  ∧ take (Z.to_nat (writePosition bb)) (data_ (step c bb))
    = take (Z.to_nat (writePosition bb)) (data_ bb)
  ∧ drop (Z.to_nat (writePosition (step c bb))) (data_ (step c bb))
    = drop (Z.to_nat (writePosition (step c bb))) (data_ bb).
Proof.
  apply calls_frame.
  sample_reachable [0; 0; 0; 0; 0; 0; 0; 0] [WriteUInt8 1; WriteUInt8 2].
Defined.

Lemma writeUInt8_fill_and_overflow_witness :
  let bb := make [0; 0; 0] 3 in
  let vs := [1; 2; 3; 4; 5] in
  writePosition (writeUInt8s vs bb).2 = ByteBuffer.capacity bb
  ∧ writeRemaining (writeUInt8s vs bb).2 = 0
  ∧ ∀ v, writeUInt8 v (writeUInt8s vs bb).2 = (false, (writeUInt8s vs bb).2).
Proof.
  cbv zeta.
  assert (Hr : reachable (make [0; 0; 0] 3)) by sample_reachable [0; 0; 0] (@nil call).
  destruct (writeUInt8_fill_and_overflow _ [1; 2; 3; 4; 5] Hr) as (_ & _ & Hfull).
  apply Hfull. vm_compute. discriminate.
Defined.

Lemma resetRead_replays_witness :
  let bb := run [WriteUInt8 1; WriteUInt8 2; ReadUInt8]
              (make [0; 0; 0; 0; 0; 0; 0; 0] 8) in
  (readUInt8s 3 (resetRead bb)).1
  = MessageBuffer.reads_below (data_ bb) 0 (writePosition bb) 3
  ∧ resetRead (readUInt8s 3 (resetRead bb)).2 = resetRead bb.
Proof.
  apply resetRead_replays.
  sample_reachable [0; 0; 0; 0; 0; 0; 0; 0] [WriteUInt8 1; WriteUInt8 2; ReadUInt8].
Defined.

Lemma remaining_queries_witness :
  let bb := run [WriteUInt8 1; WriteUInt8 2; ReadUInt8; ResetWrite]
              (make [0; 0; 0; 0; 0; 0; 0; 0] 8) in
  writeRemaining bb = ByteBuffer.capacity bb - writePosition bb
  ∧ readRemaining bb = 0.
Proof.
  cbv zeta.
  set (bb := run [WriteUInt8 1; WriteUInt8 2; ReadUInt8; ResetWrite]
               (make [0; 0; 0; 0; 0; 0; 0; 0] 8)).
  assert (Hr : reachable bb)
    by sample_reachable [0; 0; 0; 0; 0; 0; 0; 0]
         [WriteUInt8 1; WriteUInt8 2; ReadUInt8; ResetWrite].
  destruct (remaining_queries bb Hr) as (Hw & _ & Hz).
  split; [exact Hw | apply Hz; vm_compute; reflexivity].
Defined.

Lemma no_read_after_resetWrite_witness :
  let bb := run [WriteUInt8 1; WriteUInt8 2] (make [0; 0; 0; 0; 0; 0; 0; 0] 8) in
  readUInt8 (resetWrite bb) = (None, resetWrite bb)
  ∧ readUInt16LE (resetWrite bb) = (None, resetWrite bb)
  ∧ readUInt16BE (resetWrite bb) = (None, resetWrite bb)
  ∧ readUInt32LE (resetWrite bb) = (None, resetWrite bb)
  ∧ readUInt32BE (resetWrite bb) = (None, resetWrite bb).
Proof.
  apply no_read_after_resetWrite.
  sample_reachable [0; 0; 0; 0; 0; 0; 0; 0] [WriteUInt8 1; WriteUInt8 2].
Defined.

Lemma bytes_round_trip_witness :
  let bb := (writeUInt8s [1; 2; 3] (make [0; 0; 0; 0] 4)).2 in
  (readUInt8s 3 bb).1 = Some <$> [1; 2; 3]
  ∧ (readUInt8 (readUInt8s 3 bb).2).1 = None.
Proof.
  apply (bytes_round_trip [0; 0; 0; 0] 4 [1; 2; 3]).
  - apply is_size_ilp32. lia.
  - reflexivity.
  - vm_compute. discriminate.
Defined.

Lemma stale_read_cursor_after_resetWrite_witness :
  let bb := run [WriteUInt8 1; WriteUInt8 2; ReadUInt8]
              (make [0; 0; 0; 0; 0; 0; 0; 0] 8) in
  let bb' := (writeUInt8s [7; 8; 9] (resetWrite bb)).2 in
  writePosition bb' = len [7; 8; 9]
  ∧ readPosition bb' = readPosition bb
  ∧ readRemaining bb' = Z.max 0 (len [7; 8; 9] - readPosition bb)
  ∧ (readPosition bb < len [7; 8; 9] →
     (readUInt8 bb').1
     = Some (default 0 ([7; 8; 9] !! Z.to_nat (readPosition bb)))).
Proof.
  apply stale_read_cursor_after_resetWrite.
  - sample_reachable [0; 0; 0; 0; 0; 0; 0; 0]
      [WriteUInt8 1; WriteUInt8 2; ReadUInt8].
  - vm_compute. discriminate.
Defined.

End ByteBufferExtras.

(** ** MessageBuffer: begin, overflow, general round trip, edge cases *)

Module MessageBufferExtras.
Import MessageBuffer MessageBufferProofs.
Section WithPlatform.
Context {pf : Platform}.

(** X10.  On a reachable MessageBuffer [beginMessage(type)] fails and
    leaves the object as it is when the capacity is below 2; otherwise it
    succeeds whatever state the object was in: the header bytes are
    [type] and 0, [size()] is 2, the read cursor is 0 and the bytes from
    index 2 on are untouched. *)
Theorem beginMessage_effect mb type :
  reachable mb →
  (capacity_ mb < 2 → beginMessage type mb = (false, mb))
  ∧ (2 <= capacity_ mb →
     (beginMessage type mb).1 = true
     ∧ messageType (beginMessage type mb).2 = type
     ∧ payloadLength (beginMessage type mb).2 = 0
     ∧ size (beginMessage type mb).2 = 2
     ∧ tail_ (beginMessage type mb).2 = 0
     ∧ capacity_ (beginMessage type mb).2 = capacity_ mb
     ∧ drop 2 (data (beginMessage type mb).2) = drop 2 (data mb)).
Proof.
  intros Hr. pose proof (mb_reachable_bounded _ Hr) as (Hc & Hl & _).
  unfold beginMessage, headerSize_, messageType, payloadLength, size, data.
  split; intros Hcap.
  - by destruct (Z.ltb_spec (capacity_ mb) 2); [|lia].
  - destruct (Z.ltb_spec (capacity_ mb) 2); [lia|].
    cbn [fst snd data_ capacity_ head_ tail_].
    split_and!; try done.
    + unfold load, store.
      rewrite list_lookup_insert_ne by done.
      rewrite list_lookup_insert_eq; [done | unfold len in Hl; lia].
    + apply load_store_eq. rewrite len_store. lia.
    + unfold store. change (Z.to_nat 0) with 0%nat.
      change (Z.to_nat 1) with 1%nat.
      by rewrite !drop_insert_lt by lia.
Qed.

Lemma writeBytes_general vs mb :
  bounded mb → Forall is_uint8 vs →
  writeBytes vs mb
  = (replicate (length vs `min` Z.to_nat (capacity_ mb - head_ mb)) true
       ++ replicate (length vs - Z.to_nat (capacity_ mb - head_ mb)) false,
     {| data_ := splice (data_ mb) (head_ mb)
                   (take (Z.to_nat (capacity_ mb - head_ mb)) vs);
        capacity_ := capacity_ mb;
        head_ := head_ mb + len (take (Z.to_nat (capacity_ mb - head_ mb)) vs);
        tail_ := tail_ mb |}).
Proof.
  revert mb. induction vs as [|v vs IH]; intros mb Hb Hvs.
  - cbn [writeBytes length Nat.min Nat.sub replicate app].
    rewrite take_nil, splice_nil. change (len (@nil Z)) with 0.
    rewrite Z.add_0_r. by destruct mb.
  - apply Forall_cons in Hvs as [Hv Hvs].
    pose proof (mb_step_bounded (WriteByte v) mb Hv Hb) as Hb1.
    cbn [step] in Hb1. cbn [writeBytes].
    rewrite (writeByte_bounded _ _ Hb) in Hb1 |- *.
    pose proof Hb as (Hc & Hl & Hd & Ht0 & Hth & Hh).
    destruct (Z.ltb_spec (head_ mb) (capacity_ mb)); cbn [snd] in Hb1.
    + rewrite (IH _ Hb1 Hvs). cbn [data_ capacity_ head_ tail_].
      rewrite splice_cons by lia.
      replace (Z.to_nat (capacity_ mb - head_ mb))
        with (S (Z.to_nat (capacity_ mb - (head_ mb + 1)))) by lia.
      cbn [length Nat.min Nat.sub replicate app take].
      do 2 f_equal. unfold len. cbn [length]. lia.
    + rewrite (IH _ Hb Hvs).
      replace (Z.to_nat (capacity_ mb - head_ mb)) with 0%nat by lia.
      rewrite !Nat.min_0_r, !Nat.sub_0_r, !take_0. done.
Qed.

(** X11.  [writeByte] called for the bytes of [vs] in turn on a
    reachable MessageBuffer succeeds for the first [capacity - size()]
    bytes (for all of them if they are fewer) and fails for the rest; the
    accepted bytes are in the array in order from the old [size()] on,
    [size()] grows by their number, and a [writeByte] on a full array
    fails and changes nothing. *)
Theorem writeByte_fill_and_overflow mb vs :
  reachable mb → Forall is_uint8 vs →
  let room := Z.to_nat (capacity_ mb - size mb) in
  (writeBytes vs mb).1
  = replicate (length vs `min` room) true ++ replicate (length vs - room) false
  ∧ data (writeBytes vs mb).2 = splice (data mb) (size mb) (take room vs)
  ∧ size (writeBytes vs mb).2 = size mb + len (take room vs)
  ∧ (size mb = capacity_ mb → ∀ v, writeByte v mb = (false, mb)).
Proof.
  intros Hr Hvs. pose proof (mb_reachable_bounded _ Hr) as Hb.
  cbv zeta. unfold size, data. rewrite (writeBytes_general _ _ Hb Hvs).
  cbn [fst snd data_ head_]. split_and!; try done.
  intros Hfull v. rewrite (writeByte_bounded _ _ Hb).
  by destruct (Z.ltb_spec (head_ mb) (capacity_ mb)); [lia|].
Qed.

(** The object a complete write of [type] and the payload [vs] leaves. *)
Lemma written_message buffer capacity type vs :
  is_size capacity → len buffer = capacity → Forall is_uint8 buffer →
  is_uint8 type → Forall is_uint8 vs →
  len vs <= 255 → 2 + len vs <= capacity →
  finalizeMessage (writeBytes vs (beginMessage type (make buffer capacity)).2).2
  = {| data_ := type :: len vs :: vs ++ drop (Z.to_nat (2 + len vs)) buffer;
       capacity_ := capacity;
       head_ := 2 + len vs;
       tail_ := 0 |}.
Proof.
  intros Hc Hl Hd Hty Hvs Hshort Hfit.
  assert (0 <= len vs) by (unfold len; lia).
  pose proof (mb_make_bounded buffer capacity Hc Hl Hd) as Hb0.
  pose proof (mb_step_bounded (BeginMessage type) _ Hty Hb0) as Hb1.
  cbn [step] in Hb1. revert Hb1.
  unfold beginMessage, headerSize_. cbn [make capacity_ data_].
  destruct (Z.ltb_spec capacity 2); [lia|]. cbn [snd]. intros Hb1.
  set (mb1 := {| data_ := store (store buffer 0 type) 1 0;
                 capacity_ := capacity; head_ := 2; tail_ := 0 |}) in *.
  destruct (writeBytes_bounded vs mb1 Hb1 Hvs) as [Hb2 _].
  rewrite (writeBytes_fits vs mb1 Hb1 Hvs) in Hb2 |- * by (cbn; lia).
  cbn [snd] in Hb2 |- *.
  rewrite (finalizeMessage_writing _ Hb2) by (cbn; lia).
  subst mb1. cbn [data_ capacity_ head_ tail_].
  rewrite Z.min_l by lia.
  replace (2 + len vs - 2) with (len vs) by lia.
  f_equal.
  change 2 with (1 + 1) at 1.
  rewrite splice_cons by (rewrite len_store; lia).
  change 1 with (0 + 1) at 2.
  rewrite splice_cons by lia.
  unfold splice, store.
  change (Z.to_nat 0) with 0%nat. change (Z.to_nat (0 + 1)) with 1%nat.
  rewrite take_0. cbn [app insert list_insert].
  do 3 f_equal. f_equal. unfold len. cbn [length]. lia.
Qed.

Lemma readRemaining_eval d c h t :
  is_uint8 (load d 1) → 0 <= t →
  readRemaining (mk d c h t) = Z.max 0 (2 + load d 1 - t).
Proof.
  unfold is_uint8, readRemaining, payloadLength, headerSize_. intros Hpl Ht.
  cbn [data_ tail_].
  rewrite (to_size_small (2 + _)) by (apply small_is_size; lia).
  destruct (Z.ltb_spec t (2 + load d 1)); [|lia].
  rewrite to_size_small by (apply small_is_size; lia). lia.
Qed.

(** X12.  For every type byte and every payload of at most 255 bytes
    that fits the array: after [beginMessage], [writeByte] of each payload
    byte and [finalizeMessage], [size()] is 2 plus the payload length;
    [beginRead(size())] on the same object then succeeds with
    [messageType()] the type and [payloadLength()] the payload length,
    [readByte] returns the payload bytes in order and then fails, and after
    [k] reads [readRemaining()] is the payload length minus [k]. *)
Theorem message_round_trip buffer capacity type vs :
  is_size capacity → len buffer = capacity → Forall is_uint8 buffer →
  is_uint8 type → Forall is_uint8 vs →
  len vs <= 255 → 2 + len vs <= capacity →
  let w := finalizeMessage
             (writeBytes vs (beginMessage type (make buffer capacity)).2).2 in
  let r := (beginRead (size w) w).2 in
  size w = 2 + len vs
  ∧ (beginRead (size w) w).1 = true
  ∧ messageType r = type
  ∧ payloadLength r = len vs
  ∧ (readBytes (length vs) r).1 = Some <$> vs
  ∧ (readByte (readBytes (length vs) r).2).1 = None
  ∧ (∀ k, (k <= length vs)%nat →
       readRemaining (readBytes k r).2 = len vs - Z.of_nat k).
Proof.
  intros Hc Hl Hd Hty Hvs Hshort Hfit. cbv zeta.
  assert (0 <= len vs) as Hlen by (unfold len; lia).
  rewrite written_message by done. unfold size. cbn [head_].
  unfold beginRead, headerSize_. cbn [capacity_ data_ tail_].
  destruct (Z.ltb_spec (2 + len vs) 2), (Z.gtb_spec (2 + len vs) capacity);
    try lia.
  cbn [orb fst snd].
  set (d := type :: len vs :: vs ++ drop (Z.to_nat (2 + len vs)) buffer).
  assert (Hb : bounded (mk d capacity (2 + len vs) 2)).
  { unfold bounded. cbn [data_ capacity_ head_ tail_].
    split_and!; try done; try lia.
    - subst d. unfold len in *. cbn [length].
      rewrite length_app, length_drop. lia.
    - subst d. repeat apply Forall_cons_2; [done | unfold is_uint8; lia |].
      apply Forall_app_2; [done | by apply Forall_drop]. }
  assert (Hpl : load d 1 = len vs) by done.
  split_and!; try done.
  - rewrite (readBytes_bounded _ _ Hb). cbn [fst data_ head_ tail_].
    exact (ByteBufferExtras.reads_below_payload d [type; len vs] vs _
             (length vs) eq_refl eq_refl).
  - rewrite (readBytes_bounded _ _ Hb). cbn [snd data_ capacity_ head_ tail_].
    rewrite readByte_end; [done | unfold len; lia].
  - intros k Hk. rewrite (readBytes_bounded _ _ Hb).
    cbn [snd data_ capacity_ head_ tail_].
    rewrite readRemaining_eval, Hpl; unfold is_uint8, len in *; lia.
Qed.

(** X13.  [finalizeMessage()] on a reachable MessageBuffer whose
    [size()] is still below 2 (no [beginMessage] or [beginRead] has
    succeeded) over an array of at least 2 bytes records the length 255:
    [size() - 2] wraps around in [size_t] and is clamped. *)
Theorem finalize_before_begin mb :
  reachable mb → size mb < 2 → 2 <= capacity_ mb →
  payloadLength (finalizeMessage mb) = 255
  ∧ size (finalizeMessage mb) = size mb.
Proof.
  intros Hr Hsz Hcap.
  pose proof (mb_reachable_bounded _ Hr) as (Hc & Hl & Hd & Ht0 & Hth & Hh).
  pose proof SIZE_MOD_min as HM.
  unfold size, payloadLength, finalizeMessage, headerSize_ in *.
  cbn [data_ head_]. split; [|done].
  assert (to_size (head_ mb - 2) = SIZE_MOD + head_ mb - 2) as ->.
  { unfold to_size.
    rewrite <- (Z.mod_add (head_ mb - 2) 1 SIZE_MOD) by lia.
    rewrite Z.mod_small; lia. }
  destruct (Z.gtb_spec (SIZE_MOD + head_ mb - 2) 255); [|lia].
  rewrite load_store_eq by lia. done.
Qed.

(** X14.  [finalizeMessage()] is idempotent on every object: a second
    call changes nothing. *)
Theorem finalizeMessage_idempotent mb :
  finalizeMessage (finalizeMessage mb) = finalizeMessage mb.
Proof.
  unfold finalizeMessage. cbn [data_ capacity_ head_ tail_].
  unfold store. by rewrite list_insert_insert_eq.
Qed.

(** X15.  In every reachable state of a MessageBuffer the cursors are
    ordered, [0 <= read cursor <= size() <= capacity], and the array keeps
    its length and holds bytes only. *)
Theorem message_cursor_invariant mb :
  reachable mb →
  0 <= tail_ mb ∧ tail_ mb <= size mb ∧ size mb <= capacity_ mb
  ∧ len (data mb) = capacity_ mb
  ∧ Forall is_uint8 (data mb).
Proof.
  intros Hr.
  pose proof (mb_reachable_bounded _ Hr) as (Hc & Hl & Hd & Ht0 & Hth & Hh).
  by unfold size, data.
Qed.

(** X16.  In the Reading state for a received size [sz] that is exactly
    [2 + payloadLength()], [readRemaining()] is [sz] minus the read cursor
    and is the number of [readByte] calls that still succeed; when [sz] is
    larger than that, [readRemaining()] never exceeds this number. *)
Theorem readRemaining_consistent_header sz mb :
  reading sz mb →
  (sz = 2 + payloadLength mb →
     readRemaining mb = sz - tail_ mb
     ∧ ∀ n, successful_reads n mb = Z.min (Z.of_nat n) (readRemaining mb))
  ∧ (2 + payloadLength mb <= sz →
     ∀ n, Z.min (Z.of_nat n) (readRemaining mb) <= successful_reads n mb).
Proof.
  intros Hrd. destruct (reading_bounded _ _ Hrd) as (Hb & Hh & Ht).
  pose proof Hb as (_ & _ & _ & _ & Hth & _).
  assert (Hn : ∀ n, successful_reads n mb = Z.min (Z.of_nat n) (sz - tail_ mb)).
  { intros n. unfold successful_reads.
    rewrite (readBytes_bounded _ _ Hb). cbn [fst].
    rewrite Hh. apply count_reads_below. lia. }
  rewrite (mb_readRemaining_bounded _ Hb).
  split.
  - intros Heq. split; [lia|]. intros n. rewrite Hn. lia.
  - intros Hle n. rewrite Hn. lia.
Qed.

(** X17.  On a reachable MessageBuffer with room, [writeByte] leaves both
    header bytes as they are once [size()] is at least 2; on an object
    whose [size()] is still 0 it stores its byte at index 0, the header's
    type byte. *)
Theorem writeByte_and_header mb v :
  reachable mb → size mb < capacity_ mb →
  (2 <= size mb →
     messageType (writeByte v mb).2 = messageType mb
     ∧ payloadLength (writeByte v mb).2 = payloadLength mb)
  ∧ (size mb = 0 → messageType (writeByte v mb).2 = v).
Proof.
  intros Hr Hroom. pose proof (mb_reachable_bounded _ Hr) as Hb.
  pose proof Hb as (Hc & Hl & Hd & Ht0 & Hth & Hh).
  unfold size, messageType, payloadLength in *.
  rewrite (writeByte_bounded _ _ Hb).
  destruct (Z.ltb_spec (head_ mb) (capacity_ mb)); [|lia].
  cbn [snd data_]. split.
  - intros H2. unfold load, store.
    by rewrite !list_lookup_insert_ne by lia.
  - intros ->. apply load_store_eq. lia.
Qed.

(** X23.  For an array a transport has filled with a type byte, a length
    byte [n], [n] payload bytes and anything after them,
    [beginRead(2 + n)] succeeds, [messageType()] and [payloadLength()] are
    the two header bytes, [readRemaining()] is [n], and [readByte] returns
    the [n] payload bytes in order and then fails. *)
Theorem receive_message type payload rest capacity :
  is_size capacity →
  len (type :: len payload :: payload ++ rest) = capacity →
  Forall is_uint8 (type :: len payload :: payload ++ rest) →
  let r := (beginRead (2 + len payload)
              (make (type :: len payload :: payload ++ rest) capacity)).2 in
  (beginRead (2 + len payload)
     (make (type :: len payload :: payload ++ rest) capacity)).1 = true
  ∧ messageType r = type
  ∧ payloadLength r = len payload
  ∧ readRemaining r = len payload
  ∧ (readBytes (length payload) r).1 = Some <$> payload
  ∧ (readByte (readBytes (length payload) r).2).1 = None.
Proof.
  intros Hc Hl Hd. cbv zeta.
  assert (0 <= len payload) as Hlen by (unfold len; lia).
  assert (2 + len payload <= capacity) as Hfit.
  { rewrite <- Hl. unfold len. cbn [length]. rewrite length_app. lia. }
  assert (is_uint8 (len payload)) as Hn.
  { apply Forall_cons in Hd as [_ Hd]. by apply Forall_cons in Hd as [Hn _]. }
  unfold beginRead, headerSize_. cbn [make capacity_ data_ tail_].
  destruct (Z.ltb_spec (2 + len payload) 2),
    (Z.gtb_spec (2 + len payload) capacity); try lia.
  cbn [orb fst snd].
  set (d := type :: len payload :: payload ++ rest) in *.
  assert (Hb : bounded (mk d capacity (2 + len payload) 2)).
  { unfold bounded. cbn [data_ capacity_ head_ tail_].
    split_and!; try done; lia. }
  split_and!; try done.
  - rewrite readRemaining_eval by (done || lia).
    change (load d 1) with (len payload). lia.
  - rewrite (readBytes_bounded _ _ Hb). cbn [fst data_ head_ tail_].
    exact (ByteBufferExtras.reads_below_payload d [type; len payload] payload
             rest (length payload) eq_refl eq_refl).
  - rewrite (readBytes_bounded _ _ Hb). cbn [snd data_ capacity_ head_ tail_].
    rewrite readByte_end; [done | unfold len; lia].
Qed.

End WithPlatform.

(** *** Concrete instances (32-bit [size_t]) *)

#[local] Existing Instance ilp32.

Ltac calls_ok :=
  repeat (constructor;
          [cbn [call_ok]; first [exact I | size_ok | unfold is_uint8; lia]|]);
  constructor.

(** Reachability of [run cs (make buffer n)] for a literal array. *)
Ltac sample_reachable buffer n cs :=
  exists buffer, n, cs;
  split_and!; [size_ok | reflexivity | bytes_ok | calls_ok | reflexivity].

Lemma beginMessage_effect_witness :
  let mb := run [BeginRead 4; ReadByte] (make [7; 2; 8; 9; 0; 0; 0; 0] 8) in
  (beginMessage 0x42 mb).1 = true
  ∧ messageType (beginMessage 0x42 mb).2 = 0x42
  ∧ payloadLength (beginMessage 0x42 mb).2 = 0
  ∧ size (beginMessage 0x42 mb).2 = 2
  ∧ tail_ (beginMessage 0x42 mb).2 = 0
  ∧ capacity_ (beginMessage 0x42 mb).2 = capacity_ mb
  ∧ drop 2 (data (beginMessage 0x42 mb).2) = drop 2 (data mb).
Proof.
  cbv zeta.
  set (mb := run [BeginRead 4; ReadByte] (make [7; 2; 8; 9; 0; 0; 0; 0] 8)).
  assert (Hr : reachable mb)
    by sample_reachable [7; 2; 8; 9; 0; 0; 0; 0] 8 [BeginRead 4; ReadByte].
  destruct (beginMessage_effect mb 0x42 Hr) as [_ Hok].
  apply Hok. vm_compute. discriminate.
Defined.

Lemma writeByte_fill_and_overflow_witness :
  let mb := run [BeginMessage 1] (make [0; 0; 0; 0] 4) in
  (writeBytes [5; 6; 7] mb).1
  = replicate (3 `min` Z.to_nat (capacity_ mb - size mb)) true
      ++ replicate (3 - Z.to_nat (capacity_ mb - size mb)) false
  ∧ data (writeBytes [5; 6; 7] mb).2
    = splice (data mb) (size mb) (take (Z.to_nat (capacity_ mb - size mb)) [5; 6; 7]).
Proof.
  cbv zeta.
  set (mb := run [BeginMessage 1] (make [0; 0; 0; 0] 4)).
  assert (Hr : reachable mb)
    by sample_reachable [0; 0; 0; 0] 4 [BeginMessage 1].
  assert (Hvs : Forall is_uint8 [5; 6; 7]) by bytes_ok.
  destruct (writeByte_fill_and_overflow mb [5; 6; 7] Hr Hvs) as (Hres & Hdata & _).
  split; [exact Hres | exact Hdata].
Defined.

Lemma message_round_trip_witness :
  let w := finalizeMessage
             (writeBytes [0xDE; 0xAD; 0xBE]
                (beginMessage 0xAB (make [0; 0; 0; 0; 0; 0; 0; 0] 8)).2).2 in
  let r := (beginRead (size w) w).2 in
  size w = 2 + len [0xDE; 0xAD; 0xBE]
  ∧ (beginRead (size w) w).1 = true
  ∧ messageType r = 0xAB
  ∧ payloadLength r = len [0xDE; 0xAD; 0xBE]
  ∧ (readBytes 3 r).1 = Some <$> [0xDE; 0xAD; 0xBE]
  ∧ (readByte (readBytes 3 r).2).1 = None
  ∧ (∀ k, (k <= 3)%nat →
       readRemaining (readBytes k r).2 = len [0xDE; 0xAD; 0xBE] - Z.of_nat k).
Proof.
  apply (message_round_trip [0; 0; 0; 0; 0; 0; 0; 0] 8 0xAB [0xDE; 0xAD; 0xBE]).
  - size_ok.
  - reflexivity.
  - bytes_ok.
  - unfold is_uint8. lia.
  - bytes_ok.
  - vm_compute. discriminate.
  - vm_compute. discriminate.
Defined.

Lemma finalize_before_begin_witness :
  payloadLength (finalizeMessage (make [0; 0; 0; 0] 4)) = 255
  ∧ size (finalizeMessage (make [0; 0; 0; 0] 4)) = size (make [0; 0; 0; 0] 4).
Proof.
  apply finalize_before_begin.
  - sample_reachable [0; 0; 0; 0] 4 (@nil call).
  - reflexivity.
  - vm_compute. discriminate.
Defined.

Lemma message_cursor_invariant_witness :
  let mb := run [BeginMessage 1; WriteByte 2; FinalizeMessage; BeginRead 3; ReadByte]
              (make [0; 0; 0; 0] 4) in
  0 <= tail_ mb ∧ tail_ mb <= size mb ∧ size mb <= capacity_ mb
  ∧ len (data mb) = capacity_ mb
  ∧ Forall is_uint8 (data mb).
Proof.
  apply message_cursor_invariant.
  sample_reachable [0; 0; 0; 0] 4
    [BeginMessage 1; WriteByte 2; FinalizeMessage; BeginRead 3; ReadByte].
Defined.

Lemma readRemaining_consistent_header_witness :
  let mb := (readBytes 1 (beginRead 5 (make [0x42; 3; 1; 2; 3; 0; 0; 0] 8)).2).2 in
  readRemaining mb = 5 - tail_ mb
  ∧ ∀ n, successful_reads n mb = Z.min (Z.of_nat n) (readRemaining mb).
Proof.
  cbv zeta.
  set (mb := (readBytes 1 (beginRead 5 (make [0x42; 3; 1; 2; 3; 0; 0; 0] 8)).2).2).
  assert (Hrd : reading 5 mb).
  { exists (make [0x42; 3; 1; 2; 3; 0; 0; 0] 8),
      (beginRead 5 (make [0x42; 3; 1; 2; 3; 0; 0; 0] 8)).2, 1%nat.
    split_and!; [| size_ok | reflexivity | reflexivity].
    sample_reachable [0x42; 3; 1; 2; 3; 0; 0; 0] 8 (@nil call). }
  destruct (readRemaining_consistent_header 5 mb Hrd) as [Heq _].
  apply Heq. reflexivity.
Defined.

Lemma writeByte_and_header_witness :
  let mb := run [BeginMessage 0x42] (make [0; 0; 0; 0] 4) in
  (messageType (writeByte 9 mb).2 = messageType mb
   ∧ payloadLength (writeByte 9 mb).2 = payloadLength mb)
  ∧ messageType (writeByte 9 (make [0; 0; 0; 0] 4)).2 = 9.
Proof.
  cbv zeta.
  set (mb := run [BeginMessage 0x42] (make [0; 0; 0; 0] 4)).
  assert (Hr : reachable mb)
    by sample_reachable [0; 0; 0; 0] 4 [BeginMessage 0x42].
  assert (Hr0 : reachable (make [0; 0; 0; 0] 4))
    by sample_reachable [0; 0; 0; 0] 4 (@nil call).
  split.
  - apply (writeByte_and_header mb 9 Hr); vm_compute; reflexivity || discriminate.
  - apply (writeByte_and_header _ 9 Hr0); vm_compute; reflexivity.
Defined.

Lemma receive_message_witness :
  let r := (beginRead (2 + len [0xAA; 0xBB])
              (make [0x42; 2; 0xAA; 0xBB; 0xCC; 0; 0; 0] 8)).2 in
  (beginRead (2 + len [0xAA; 0xBB])
     (make [0x42; 2; 0xAA; 0xBB; 0xCC; 0; 0; 0] 8)).1 = true
  ∧ messageType r = 0x42
  ∧ payloadLength r = len [0xAA; 0xBB]
  ∧ readRemaining r = len [0xAA; 0xBB]
  ∧ (readBytes 2 r).1 = Some <$> [0xAA; 0xBB]
  ∧ (readByte (readBytes 2 r).2).1 = None.
Proof.
  apply (receive_message 0x42 [0xAA; 0xBB] [0xCC; 0; 0; 0] 8).
  - size_ok.
  - reflexivity.
  - change (Forall is_uint8 [0x42; 2; 0xAA; 0xBB; 0xCC; 0; 0; 0]). bytes_ok.
Defined.

End MessageBufferExtras.

(** ** RingBuffer: queries, clear, filling and draining *)

Module RingBufferExtras.
Import RingBuffer RingBufferProofs.
Section WithElem.
Context {pf : Platform} {T : Type} `{Inhabited T}.
Variable N : Z.
Hypothesis N_pos : 1 <= N.
Hypothesis N_size : is_size N.

Local Abbreviation ring := (RingBuffer.t (T:=T)).

(** X18.  On every reachable RingBuffer [size()] is the number of live
    elements and lies between 0 and [capacity()], both indices are below
    [N], [empty()] holds exactly when there is no live element and
    [full()] exactly when there are [N], and the two never hold
    together. *)
Theorem ring_queries (rb : ring) :
  reachable N rb →
  size rb = len (contents N rb)
  ∧ 0 <= size rb <= capacity N rb
  ∧ 0 <= head_ rb < N ∧ 0 <= tail_ rb < N
  ∧ (empty rb = true ↔ contents N rb = [])
  ∧ (full N rb = true ↔ len (contents N rb) = N)
  ∧ ¬ (empty rb = true ∧ full N rb = true).
Proof using N_pos N_size.
  intros Hr. pose proof (reachable_inv N N_pos N_size rb Hr) as Hi.
  pose proof (len_contents N rb Hi) as Hlen.
  destruct Hi as (Hl & Ht & Hc & Hh).
  assert (Hhead : 0 <= head_ rb < N)
    by (rewrite Hh; apply Z.mod_pos_bound; lia).
  assert (Hnil : count_ rb = 0 ↔ contents N rb = []).
  { split.
    - intros Hz. rewrite Hz in Hlen.
      destruct (contents N rb); [done|]. unfold len in Hlen. cbn in Hlen. lia.
    - intros Hnil. rewrite Hnil in Hlen. unfold len in Hlen. cbn in Hlen. lia. }
  unfold size, capacity, empty, full. rewrite Hlen, !Z.eqb_eq.
  split_and!; done || lia.
Qed.

(** X19.  [clear()] on a reachable RingBuffer leaves it empty with
    [size() == 0], and every later sequence of calls gives the results it
    gives on a new buffer (those of the queue of the specification started
    empty), whatever the slots still hold. *)
Theorem clear_gives_new_buffer (rb : ring) :
  reachable N rb →
  empty (clear rb) = true
  ∧ size (clear rb) = 0
  ∧ contents N (clear rb) = []
  ∧ ∀ cs, (run N cs (clear rb)).1 = (run N cs (make N)).1
          ∧ (run N cs (clear rb)).1 = (queue_run N cs []).1.
Proof using N_pos N_size.
  intros Hr. pose proof (reachable_inv N N_pos N_size rb Hr) as Hi.
  pose proof (clear_inv N N_pos rb Hi) as Hi'.
  assert (Hnil : contents N (clear rb) = []) by done.
  split_and!; try done.
  intros cs.
  destruct (run_refines N N_pos N_size cs (clear rb) Hi') as (Hres & _).
  destruct (run_refines N N_pos N_size cs (make N) (make_inv N N_pos))
    as (Hres0 & _).
  rewrite Hnil in Hres. rewrite contents_make in Hres0.
  by rewrite Hres, Hres0.
Qed.

(** *** Filling and draining the queue of the specification *)

Lemma queue_run_pushes (vs q : list T) :
  len q + len vs <= N →
  queue_run N (Push <$> vs) q = (replicate (length vs) (Pushed true), q ++ vs).
Proof.
  revert q. induction vs as [|v vs IH]; intros q Hfit.
  - cbn. by rewrite app_nil_r.
  - assert (len (v :: vs) = 1 + len vs) as Hl by (unfold len; cbn; lia).
    assert (0 <= len vs) by (unfold len; lia).
    rewrite Hl in Hfit.
    cbn [fmap list_fmap queue_run queue_step]. unfold queue_push.
    destruct (Z.ltb_spec (len q) N); [|lia].
    change (list_fmap _ _ Push vs) with (Push <$> vs).
    rewrite IH.
    + cbn [length replicate]. by rewrite <- app_assoc.
    + unfold len in *. rewrite length_app. cbn [length]. lia.
Qed.

Lemma queue_run_pops (q : list T) :
  queue_run N (replicate (length q) Pop) q = ((λ x, Popped (Some x)) <$> q, []).
Proof.
  induction q as [|x q IH]; [done|].
  cbn [length replicate queue_run queue_step queue_pop]. by rewrite IH.
Qed.

(** X20.  On a new RingBuffer<T, N>, pushing at most [N] values succeeds
    for every one of them and popping as many times then returns them in
    the order pushed and leaves the buffer empty, where a further pop
    fails; after exactly [N] pushes the buffer is full and a further push
    fails and changes nothing. *)
Theorem fill_and_drain (vs : list T) :
  len vs <= N →
  let filled := (run N (Push <$> vs) (make N)).2 in
  let drained := (run N (replicate (length vs) Pop) filled).2 in
  (run N (Push <$> vs) (make N)).1 = replicate (length vs) (Pushed true)
  ∧ size filled = len vs
  ∧ (run N (replicate (length vs) Pop) filled).1
    = (λ x, Popped (Some x)) <$> vs
  ∧ empty drained = true
  ∧ pop N drained = (None, drained)
  ∧ (len vs = N → full N filled = true ∧ ∀ x, push N x filled = (false, filled)).
Proof using N_pos N_size.
  intros Hfit. cbv zeta.
  destruct (run_refines N N_pos N_size (Push <$> vs) (make N) (make_inv N N_pos))
    as (Hres & Hq & Hi).
  rewrite contents_make in Hres, Hq.
  rewrite queue_run_pushes in Hres, Hq
    by (change (len (@nil T)) with 0; lia).
  cbn [fst snd app] in Hres, Hq.
  set (filled := (run N (Push <$> vs) (make N)).2) in *.
  pose proof (len_contents N filled Hi) as Hcount. rewrite Hq in Hcount.
  destruct (run_refines N N_pos N_size (replicate (length vs) Pop) filled Hi)
    as (Hres2 & Hq2 & Hi2).
  rewrite Hq, queue_run_pops in Hres2, Hq2. cbn [fst snd] in Hres2, Hq2.
  set (drained := (run N (replicate (length vs) Pop) filled).2) in *.
  pose proof (len_contents N drained Hi2) as Hcount2. rewrite Hq2 in Hcount2.
  change (len (@nil T)) with 0 in Hcount2.
  split_and!; try done.
  - unfold empty. by rewrite <- Hcount2.
  - rewrite (pop_inv N N_pos N_size _ Hi2), <- Hcount2. done.
  - intros HN. unfold full. rewrite <- Hcount, HN, Z.eqb_refl.
    split; [done|]. intros x.
    rewrite (push_inv N N_pos N_size _ _ Hi), <- Hcount, HN.
    by rewrite Z.ltb_irrefl.
Qed.

End WithElem.

(** *** A concrete instance: RingBuffer<int, 3> (32-bit [size_t]) *)

Lemma ring_sample_reachable (cs : list (call (T:=Z))) :
  reachable (pf:=ilp32) 3 (run (pf:=ilp32) 3 cs (make 3)).2.
Proof. by exists cs. Defined.

Lemma ring_three_ok : 1 <= 3 ∧ is_size (pf:=ilp32) 3.
Proof.
  split; [lia | unfold is_size, SIZE_MOD; cbn [size_bits ilp32]; lia].
Defined.

Lemma ring_queries_witness :
  let rb := (run (pf:=ilp32) (T:=Z) 3 [Push 1; Push 2; Pop; Push 3; Push 4]
               (make 3)).2 in
  size rb = len (contents 3 rb)
  ∧ 0 <= size rb <= capacity 3 rb
  ∧ 0 <= head_ rb < 3 ∧ 0 <= tail_ rb < 3
  ∧ (empty rb = true ↔ contents 3 rb = [])
  ∧ (full 3 rb = true ↔ len (contents 3 rb) = 3)
  ∧ ¬ (empty rb = true ∧ full 3 rb = true).
Proof.
  destruct ring_three_ok as [H1 H3].
  apply (ring_queries (pf:=ilp32) 3 H1 H3).
  apply ring_sample_reachable.
Defined.

Lemma clear_gives_new_buffer_witness :
  let rb := (run (pf:=ilp32) (T:=Z) 3 [Push 5; Push 6] (make 3)).2 in
  empty (clear rb) = true
  ∧ size (clear rb) = 0
  ∧ contents 3 (clear rb) = []
  ∧ ∀ cs, (run (pf:=ilp32) 3 cs (clear rb)).1 = (run (pf:=ilp32) 3 cs (make 3)).1
          ∧ (run (pf:=ilp32) 3 cs (clear rb)).1 = (queue_run 3 cs []).1.
Proof.
  destruct ring_three_ok as [H1 H3].
  apply (clear_gives_new_buffer (pf:=ilp32) 3 H1 H3).
  apply ring_sample_reachable.
Defined.

Lemma fill_and_drain_witness :
  let filled := (run (pf:=ilp32) (T:=Z) 3 (Push <$> [7; 8; 9]) (make 3)).2 in
  (run (pf:=ilp32) 3 (replicate 3 Pop) filled).1
  = (λ x, Popped (Some x)) <$> [7; 8; 9]
  ∧ full 3 filled = true
  ∧ ∀ x, push (pf:=ilp32) 3 x filled = (false, filled).
Proof.
  destruct ring_three_ok as [H1 H3].
  assert (Hfit : len [7; 8; 9] <= 3) by (vm_compute; discriminate).
  destruct (fill_and_drain (pf:=ilp32) 3 H1 H3 [7; 8; 9] Hfit)
    as (_ & _ & Hpops & _ & _ & Hfull).
  destruct (Hfull eq_refl) as [Hf Hpush].
  cbv zeta. split_and!; [exact Hpops | exact Hf | exact Hpush].
Defined.

End RingBufferExtras.

(** ** The factories *)

Module FactoryExtras.
Section WithPlatform.
Context {pf : Platform}.

(** X21.  The factories give the objects the constructors give: a
    ByteBuffer from [make_byte_buffer] over [capacity] bytes has both
    cursors at 0, [writeRemaining() == capacity()], nothing to read and the
    array untouched; a MessageBuffer from [make_message_buffer] has
    [size() == 0], the array untouched and no byte to read. *)
Theorem factories_give_new_objects buffer capacity :
  is_size capacity →
  let bb := antBuffers.make_byte_buffer buffer capacity in
  let mb := antBuffers.make_message_buffer buffer capacity in
  ByteBuffer.capacity bb = capacity
  ∧ ByteBuffer.writePosition bb = 0
  ∧ ByteBuffer.readPosition bb = 0
  ∧ ByteBuffer.writeRemaining bb = capacity
  ∧ ByteBuffer.readRemaining bb = 0
  ∧ ByteBuffer.data_ bb = buffer
  ∧ ByteBuffer.readUInt8 bb = (None, bb)
  ∧ MessageBuffer.size mb = 0
  ∧ MessageBuffer.data mb = buffer
  ∧ MessageBuffer.readByte mb = (None, mb).
Proof.
  intros Hc. cbv zeta.
  unfold antBuffers.make_byte_buffer, antBuffers.make_message_buffer,
    ByteBuffer.make, MessageBuffer.make, ByteBuffer.readUInt8,
    ByteBuffer.readRemaining, ByteBuffer.writeRemaining.
  cbn. split_and!; try done.
  destruct (Z.ltb_spec 0 capacity); [|unfold is_size in Hc; lia].
  rewrite Z.sub_0_r. by apply to_size_small.
Qed.

End WithPlatform.

Lemma factories_give_new_objects_witness :
  ByteBuffer.writeRemaining (pf:=ilp32)
    (antBuffers.make_byte_buffer [0; 0; 0; 0; 0; 0; 0; 0] 8) = 8
  ∧ MessageBuffer.size
      (antBuffers.make_message_buffer [0; 0; 0; 0; 0; 0; 0; 0] 8) = 0.
Proof.
  assert (H8 : is_size (pf:=ilp32) 8)
    by (unfold is_size, SIZE_MOD; cbn [size_bits ilp32]; lia).
  destruct (factories_give_new_objects (pf:=ilp32) [0; 0; 0; 0; 0; 0; 0; 0] 8 H8)
    as (_ & _ & _ & Hw & _ & _ & _ & Hs & _).
  split; [exact Hw | exact Hs].
Defined.

End FactoryExtras.
